(** * Permission-aware retrieval filter ([rag.go]): model and properties

    A shallow embedding of [RAGPipeline.Query]: the retrieval loop over the
    document collection, the parsing of the [spicedb_object] metadata entry,
    and the loop of [CheckPermission] calls against the SpiceDB client.

    Go strings are byte sequences and are modelled by [string] (a sequence of
    8-bit [ascii] values); [map[string]string] is a [gmap string string]; a
    slice is a [list], the nil slice being [[]].  The SpiceDB client is an
    external service: it is a transition function over an abstract state
    [World], and the run of [Query] threads that state. *)

From Stdlib Require Import ZArith Ascii String List Lia.
From stdpp Require Import base option list gmap strings.

Local Open Scope Z_scope.

(** ** The functions of Go's [strings] package that [Query] calls *)

Module GoStrings.

(** [len(s)] *)
Definition len (s : string) : Z := Z.of_nat (String.length s).

(** [s[:m]] *)
Fixpoint sliceTo (m : nat) (s : string) : string :=
  match m, s with
  | S m', String c s' => String c (sliceTo m' s')
  | _, _ => EmptyString
  end.

(** [s[m:]] *)
Fixpoint sliceFrom (m : nat) (s : string) : string :=
  match m, s with
  | S m', String _ s' => sliceFrom m' s'
  | _, _ => s
  end.

(** [strings.HasPrefix(s, prefix)] *)
Fixpoint HasPrefix (s prefix : string) {struct prefix} : bool :=
  match prefix, s with
  | EmptyString, _ => true
  | String p prefix', String c s' => Ascii.eqb c p && HasPrefix s' prefix'
  | String _ _, EmptyString => false
  end.

(** The scan of [strings.Index]: the first position, counted from [i], at
    which [substr] starts in [s]; [-1] when there is none. *)
Fixpoint indexFrom (i : Z) (s substr : string) : Z :=
  if HasPrefix s substr then i
  else match s with
       | EmptyString => -1
       | String _ s' => indexFrom (i + 1) s' substr
       end.

(** [strings.Index(s, substr)] *)
Definition Index (s substr : string) : Z := indexFrom 0 s substr.

(** [strings.Contains(s, substr)]: [return Index(s, substr) >= 0] *)
Definition Contains (s substr : string) : bool := 0 <=? Index s substr.

(** The loop of [genSplit]: at most [n] cuts at the first [sep] of what is
    left, the rest of the string being the last element. *)
Fixpoint splitLoop (n : nat) (s sep : string) : list string :=
  match n with
  | O => [s]
  | S n' =>
      let m := Index s sep in
      if m <? 0 then [s]
      else sliceTo (Z.to_nat m) s
             :: splitLoop n' (sliceFrom (Z.to_nat (m + len sep)) s) sep
  end.

(** [strings.SplitN(s, sep, n)] for a non-empty separator ([Query] splits
    on [":"]); with an empty separator Go explodes [s] into its UTF-8
    sequences, which is not modelled.  A negative [n] asks for all the
    substrings: [len s] cuts are then more than can happen. *)
Definition SplitN (s sep : string) (n : Z) : list string :=
  if n =? 0 then []
  else
    let n := if n <? 0 then len s + 1 else n in
    let n := if len s + 1 <? n then len s + 1 else n in
    splitLoop (Z.to_nat (n - 1)) s sep.

(** [utf8.RuneSelf]: the bytes below it are the ASCII characters. *)
Definition RuneSelf : N := 0x80%N.

Fixpoint allBytes (p : ascii -> bool) (s : string) : bool :=
  match s with
  | EmptyString => true
  | String c s' => p c && allBytes p s'
  end.

Fixpoint anyByte (p : ascii -> bool) (s : string) : bool :=
  match s with
  | EmptyString => false
  | String c s' => p c || anyByte p s'
  end.

Fixpoint mapBytes (f : ascii -> ascii) (s : string) : string :=
  match s with
  | EmptyString => EmptyString
  | String c s' => String (f c) (mapBytes f s')
  end.

(** ['A' <= c && c <= 'Z'] *)
Definition isUpperByte (c : ascii) : bool :=
  ((N_of_ascii "A" <=? N_of_ascii c) && (N_of_ascii c <=? N_of_ascii "Z"))%N.

(** [c += 'a' - 'A'] on an upper-case byte, other bytes copied. *)
Definition lowerByte (c : ascii) : ascii :=
  if isUpperByte c
  then ascii_of_N (N_of_ascii c + (N_of_ascii "a" - N_of_ascii "A"))
  else c.

Section ToLower.
(** [strings.Map(unicode.ToLower, s)], the path [strings.ToLower] takes
    on a string with a byte outside ASCII.  The Unicode case tables are
    not part of the program: the mapping is a parameter. *)
Variable unicodeToLower : string -> string.

(** [strings.ToLower(s)] *)
Definition ToLower (s : string) : string :=
  let isASCII := allBytes (fun c => (N_of_ascii c <? RuneSelf)%N) s in
  let hasUpper := anyByte isUpperByte s in
  if isASCII then
    if negb hasUpper then s else mapBytes lowerByte s
  else unicodeToLower s.
End ToLower.

End GoStrings.

Import GoStrings.

(** ** The messages of the SpiceDB API that [Query] builds and reads *)

(** [apiv1.ObjectReference] *)
Record ObjectReference := mkObjectReference {
  ObjectType : string;
  ObjectId : string
}.

(** [apiv1.SubjectReference]; [Query] sets the [Object] field only. *)
Record SubjectReference := mkSubjectReference {
  Object : ObjectReference
}.

(** [apiv1.CheckPermissionRequest], with the three fields [Query] sets. *)
Record CheckPermissionRequest := mkCheckPermissionRequest {
  Resource : ObjectReference;
  Permission : string;
  Subject : SubjectReference
}.

(** [apiv1.CheckPermissionResponse_Permissionship] is an [int32] with four
    named values. *)
Definition PERMISSIONSHIP_UNSPECIFIED : Z := 0.
Definition PERMISSIONSHIP_NO_PERMISSION : Z := 1.
Definition PERMISSIONSHIP_HAS_PERMISSION : Z := 2.
Definition PERMISSIONSHIP_CONDITIONAL_PERMISSION : Z := 3.

(** [apiv1.CheckPermissionResponse], with the field [Query] reads. *)
Record CheckPermissionResponse := mkCheckPermissionResponse {
  Permissionship : Z
}.

(** ** Documents *)

(** [type Document struct] *)
Record Document := mkDocument {
  ID : string;
  Text : string;
  Metadata : gmap string string
}.

(** [m[k]] on a [map[string]string]: the zero value [""] for an absent key. *)
Definition mapIndex (m : gmap string string) (k : string) : string :=
  default "" (m !! k).

(** Lines 53-64 of [Query]: the [(objType, objID)] pair read from the
    [spicedb_object] entry, [None] where the loop says [continue]. *)
Definition resolveIdentity (d : Document) : option (string * string) :=
  let spiceObj := mapIndex (Metadata d) "spicedb_object" in
  if decide (spiceObj = "") then None
  else
    let parts := SplitN spiceObj ":" 2 in
    if decide (length parts ≠ 2%nat) then None
    else Some (nth 0 parts "", nth 1 parts "").

(** ** The pipeline and its runs *)

Section Pipeline.

(** [context.Context], the state of the SpiceDB service and Go's [error]
    values are opaque to [Query]. *)
Context {Ctx World Err : Type}.

Variable unicodeToLower : string -> string.

(** What [CheckPermission] returns: a response, or an error. *)
Definition Answer : Type := CheckPermissionResponse + Err.

(** [*authzed.Client], as far as [Query] uses it: one method, which may
    read and change the state of the service. *)
Record Client := mkClient {
  CheckPermission :
    Ctx -> CheckPermissionRequest -> World -> Answer * World
}.

(** [type RAGPipeline struct] *)
Record RAGPipeline := mkRAGPipeline {
  docs : list Document;
  spiceClient : Client;
  resourceType : string;
  permission : string
}.

(** [NewRAGPipeline] *)
Definition NewRAGPipeline (spiceClient : Client)
    (resourceType permission : string) (docs : list Document) : RAGPipeline :=
  {| docs := docs;
     spiceClient := spiceClient;
     resourceType := resourceType;
     permission := permission |}.

(** The store a run of [Query] works on: the pipeline behind the receiver
    [r], the state of the service, and (for the statements only) the
    calls made so far with their answers, oldest first. *)
Record Heap := mkHeap {
  self : RAGPipeline;
  service : World;
  issued : list (CheckPermissionRequest * Answer)
}.

(** Computations over the store. *)
Definition M (A : Type) : Type := Heap -> A * Heap.

#[local] Instance M_ret : MRet M := fun A a h => (a, h).

#[local] Instance M_bind : MBind M :=
  fun A B f m h => let '(a, h') := m h in f a h'.

(** Reading a field of [r]. *)
Definition readSelf {A : Type} (field : RAGPipeline -> A) : M A :=
  fun h => (field (self h), h).

(** [client.CheckPermission(ctx, req)]: the service moves to its next
    state and the call is added to the record of calls. *)
Definition callCheckPermission (client : Client) (ctx : Ctx)
    (req : CheckPermissionRequest) : M Answer :=
  fun h =>
    let '(answer, w) := CheckPermission client ctx req (service h) in
    (answer,
     {| self := self h; service := w;
        issued := issued h ++ [(req, answer)] |}).

(** The first loop of [Query] (lines 44-48), from the state in which
    [candidates] has been filled by the documents already visited. *)
Fixpoint retrievalLoop (lq : string) (ds candidates : list Document)
    : list Document :=
  match ds with
  | [] => candidates
  | d :: ds' =>
      if Contains (ToLower unicodeToLower (Text d)) lq
      then retrievalLoop lq ds' (candidates ++ [d])
      else retrievalLoop lq ds' candidates
  end.

(** The retrieval pass: [candidates] starts as the nil slice. *)
Definition retrieve (collection : list Document) (query : string)
    : list Document :=
  retrievalLoop (ToLower unicodeToLower query) collection [].

(** The second loop of [Query] (lines 52-89) with the [return] that
    follows it, from the state in which [allowed] has been filled by the
    candidates already visited.  The result is Go's pair of a slice and
    an error, [None] being the nil error. *)
Fixpoint authorizeLoop (ctx : Ctx) (userID : string)
    (candidates allowed : list Document) : M (list Document * option Err) :=
  match candidates with
  | [] => mret (allowed, None)
  | d :: rest =>
      match resolveIdentity d with
      | None => authorizeLoop ctx userID rest allowed
      | Some (objType, objID) =>
          let res := {| ObjectType := objType; ObjectId := objID |} in
          let subject :=
            {| Object := {| ObjectType := "user"; ObjectId := userID |} |} in
          client ← readSelf spiceClient;
          perm ← readSelf permission;
          answer ← callCheckPermission client ctx
                     {| Resource := res; Permission := perm;
                        Subject := subject |};
          match answer with
          | inr err => mret ([], Some err)
          | inl resp =>
              if decide (Permissionship resp = PERMISSIONSHIP_HAS_PERMISSION)
              then authorizeLoop ctx userID rest (allowed ++ [d])
              else authorizeLoop ctx userID rest allowed
          end
      end
  end.

(** [func (r *RAGPipeline) Query(ctx, userID, query)] *)
Definition Query (ctx : Ctx) (userID query : string)
    : M (list Document * option Err) :=
  collection ← readSelf docs;
  authorizeLoop ctx userID (retrieve collection query) [].

End Pipeline.

Arguments Client : clear implicits.
Arguments RAGPipeline : clear implicits.
Arguments Heap : clear implicits.

(** ** Notions used by the statements *)

(** [sub] occurs in [s] as a contiguous run of bytes. *)
Definition substring_of (sub s : string) : Prop :=
  ∃ pre post : string, s = pre +:+ sub +:+ post.

(** The reference value [v] is well formed: a resource type and a resource
    id, both non-empty and free of colons, with one colon between them. *)
Definition well_formed_reference (v : string) : Prop :=
  ∃ ty id : string,
    v = ty +:+ ":" +:+ id ∧ ty ≠ "" ∧ id ≠ "" ∧
    Contains ty ":" = false ∧ Contains id ":" = false.

(** A document whose reference is missing or malformed. *)
Definition reference_missing_or_malformed (d : Document) : Prop :=
  match Metadata d !! "spicedb_object" with
  | None => True
  | Some v => ¬ well_formed_reference v
  end.

Section Notions.
Context {Ctx World Err : Type}.

(** The request [Query] builds for a document with identity [(ty, id)]. *)
Definition requestFor (perm userID : string) (identity : string * string)
    : CheckPermissionRequest :=
  {| Resource := {| ObjectType := identity.1; ObjectId := identity.2 |};
     Permission := perm;
     Subject := {| Object := {| ObjectType := "user"; ObjectId := userID |} |} |}.

(** The candidates a check is issued for: those with an identity. *)
Definition checkable (candidates : list Document) : list Document :=
  filter (λ d, is_Some (resolveIdentity d)) candidates.

(** The requests a run over [candidates] sends when no call fails: one
    for each candidate with an identity, in the order of the candidates. *)
Definition plannedRequests (perm userID : string)
    (candidates : list Document) : list CheckPermissionRequest :=
  omap (λ d, requestFor perm userID <$> resolveIdentity d) candidates.

(** The call got a response (whatever its permissionship). *)
Definition answered (call : CheckPermissionRequest * @Answer Err) : Prop :=
  match call.2 with inl _ => True | inr _ => False end.

(** The call failed. *)
Definition erred (call : CheckPermissionRequest * @Answer Err) : Prop :=
  match call.2 with inl _ => False | inr _ => True end.

(** The answer is a response whose permissionship is HAS_PERMISSION. *)
Definition grants (answer : @Answer Err) : bool :=
  match answer with
  | inl resp => bool_decide (Permissionship resp = PERMISSIONSHIP_HAS_PERMISSION)
  | inr _ => false
  end.

(** The documents, among those checked, whose call was granted. *)
Fixpoint grantedDocs (checked : list Document)
    (calls : list (CheckPermissionRequest * @Answer Err)) : list Document :=
  match checked, calls with
  | d :: checked', call :: calls' =>
      if grants call.2 then d :: grantedDocs checked' calls'
      else grantedDocs checked' calls'
  | _, _ => []
  end.

(** The pipeline [r] with another [resourceType]. *)
Definition withResourceType (rt : string) (r : RAGPipeline Ctx World Err)
    : RAGPipeline Ctx World Err :=
  {| docs := docs r; spiceClient := spiceClient r;
     resourceType := rt; permission := permission r |}.

(** The pipeline [r] over another collection. *)
Definition withDocs (ds : list Document) (r : RAGPipeline Ctx World Err)
    : RAGPipeline Ctx World Err :=
  {| docs := ds; spiceClient := spiceClient r;
     resourceType := resourceType r; permission := permission r |}.

(** The test of the retrieval loop on a document, [lq] being the
    lower-cased query. *)
Definition selects (unicodeToLower : string → string) (lq : string)
    (d : Document) : Prop :=
  Contains (ToLower unicodeToLower (Text d)) lq = true.

#[global] Instance selects_dec unicodeToLower lq d :
  Decision (selects unicodeToLower lq d).
Proof. unfold selects. apply _. Defined.

(** The store after a call. *)
Definition afterCall (h : Heap Ctx World Err) (req : CheckPermissionRequest)
    (answer : @Answer Err) (w : World) : Heap Ctx World Err :=
  {| self := self h; service := w; issued := issued h ++ [(req, answer)] |}.

(** The request the loop sends, from the store [h], for a candidate with
    the given identity. *)
Definition requestIn (h : Heap Ctx World Err) (userID : string)
    (identity : string * string) : CheckPermissionRequest :=
  requestFor (permission (self h)) userID identity.

(** What a run of the second loop over [candidates], entered with
    [allowed] from the store [h], leaves in [out]: the calls it added to
    the record, which follow the planned requests, and what it returns.
    Without an error every planned request was sent and answered, and
    the slice is [allowed] followed by the granted documents; with an
    error the slice is nil and the failed call is the last one. *)
Definition loopTrace (userID : string) (candidates allowed : list Document)
    (h : Heap Ctx World Err)
    (out : (list Document * option Err) * Heap Ctx World Err) : Prop :=
  ∃ calls : list (CheckPermissionRequest * @Answer Err),
    issued out.2 = issued h ++ calls ∧
    calls.*1 `prefix_of`
      plannedRequests (permission (self h)) userID candidates ∧
    match out.1.2 with
    | None =>
        Forall answered calls ∧
        calls.*1 = plannedRequests (permission (self h)) userID candidates ∧
        out.1.1 = allowed ++ grantedDocs (checkable candidates) calls
    | Some err =>
        out.1.1 = [] ∧
        ∃ before req, calls = before ++ [(req, inr err)] ∧
                      Forall answered before
    end.

(** The store [h] with another pipeline behind [r]. *)
Definition withSelf (r : RAGPipeline Ctx World Err) (h : Heap Ctx World Err)
    : Heap Ctx World Err :=
  {| self := r; service := service h; issued := issued h |}.
End Notions.

(** ** Further notions, for the properties beyond the claims *)

Section MoreNotions.
Context {Err : Type}.

(** No byte of [s] is [utf8.RuneSelf] or above: [ToLower] takes its ASCII
    path on [s]. *)
Definition isASCII (s : string) : Prop :=
  allBytes (λ c, (N_of_ascii c <? RuneSelf)%N) s = true.

(** For a service that answers a request with [respond req] whatever its
    state: the candidate [d] has an identity and the response to its
    request has the permissionship HAS_PERMISSION. *)
Definition permitted (respond : CheckPermissionRequest → CheckPermissionResponse)
    (perm userID : string) (d : Document) : bool :=
  match resolveIdentity d with
  | Some identity =>
      bool_decide (Permissionship (respond (requestFor perm userID identity))
                   = PERMISSIONSHIP_HAS_PERMISSION)
  | None => false
  end.




(** The ids of a slice of documents, in order. *)
Definition docIDs (ds : list Document) : list string := ID <$> ds.

End MoreNotions.

(** ** The helper of the repository's test that compares a result with the
    ids expected *)

Module RagTest.

(** The two ways [requireEqualDocIDs] ends the test with [t.Fatalf], with
    the values its message prints. *)
Inductive Fatal :=
| WrongCount (nExpected nGot : nat) (got : gset string)
| MissingDoc (id : string) (got : gset string).

(** The first loop: [got[d.ID] = struct{}{}] for each document, [got] being
    a [map[string]struct{}], that is a set of ids. *)
Fixpoint collectIDs (ds : list Document) (got : gset string) : gset string :=
  match ds with
  | [] => got
  | d :: ds' => collectIDs ds' ({[ ID d ]} ∪ got)
  end.

(** The second loop: the first expected id that is not in [got] ends the
    test. *)
Fixpoint requireAll (expected : list string) (got : gset string)
    : option Fatal :=
  match expected with
  | [] => None
  | id :: expected' =>
      if decide (id ∈ got) then requireAll expected' got
      else Some (MissingDoc id got)
  end.

(** [requireEqualDocIDs(t, expected, docs)]: [None] when the helper returns
    and the test goes on. *)
Definition requireEqualDocIDs (expected : list string) (ds : list Document)
    : option Fatal :=
  let got := collectIDs ds ∅ in
  if decide (size got ≠ length expected)
  then Some (WrongCount (length expected) (size got) got)
  else requireAll expected got.

End RagTest.

(** ** A test bench: the documents and relationships of the repository's
    test, and two stand-ins for the SpiceDB client *)

Module Fixture.

Definition document (id text ref : string) : Document :=
  {| ID := id; Text := text; Metadata := {[ "spicedb_object" := ref ]} |}.

Definition doc1 : Document :=
  document "doc1" "Internal roadmap for 2025. Highly confidential."
           "document:doc1".
Definition doc2 : Document :=
  document "doc2" "Customer success playbook and escalation procedures."
           "document:doc2".
Definition doc3 : Document :=
  document "doc3" "Public FAQ for all users." "document:doc3".

Definition testDocs : list Document := [doc1; doc2; doc3].

(** A document without the [spicedb_object] entry. *)
Definition orphan : Document :=
  {| ID := "doc4"; Text := "Public notes."; Metadata := ∅ |}.

(** A document whose reference has an empty resource type. *)
Definition untyped : Document := document "doc5" "Public draft." ":doc5".

(** A document whose reference has two colons. *)
Definition nested : Document :=
  document "doc6" "Public memo." "document:team:doc6".

(** [writeTestTuples]: (resource type, resource id, relation, subject
    type, subject id). *)
Definition relationships : list (string * string * string * string * string) :=
  [ ("document", "doc1", "owner", "user", "emilia");
    ("document", "doc2", "viewer", "user", "beatrice");
    ("document", "doc3", "viewer", "user", "emilia");
    ("document", "doc3", "viewer", "user", "beatrice");
    ("document", "doc3", "viewer", "user", "charlie") ].

(** [permission read = owner + viewer] on the relationships above; any
    other permission is unknown to the schema. *)
Definition seededAnswer (req : CheckPermissionRequest) : @Answer string :=
  if bool_decide (Permission req = "read") then
    let related rel :=
      bool_decide
        ((ObjectType (Resource req), ObjectId (Resource req), rel,
          ObjectType (Object (Subject req)),
          ObjectId (Object (Subject req))) ∈ relationships) in
    inl {| Permissionship :=
             if related "owner" || related "viewer"
             then PERMISSIONSHIP_HAS_PERMISSION
             else PERMISSIONSHIP_NO_PERMISSION |}
  else inr "permission not found".

(** A service seeded as in the test; its state counts the calls served. *)
Definition seededClient : Client unit nat string :=
  {| CheckPermission := λ _ req served, (seededAnswer req, S served) |}.

(** A service that plays a script: each call takes the next answer, and
    fails once the script is over. *)
Definition scriptedClient : Client unit (list (@Answer string)) string :=
  {| CheckPermission := λ _ _ script,
       match script with
       | answer :: script' => (answer, script')
       | [] => (inr "unavailable", [])
       end |}.

(** A service that grants everything. *)
Definition grantingClient : Client unit unit string :=
  {| CheckPermission := λ _ _ w,
       (inl {| Permissionship := PERMISSIONSHIP_HAS_PERMISSION |}, w) |}.

Definition seededHeap : Heap unit nat string :=
  {| self := NewRAGPipeline seededClient "document" "read" testDocs;
     service := 0%nat; issued := [] |}.

Definition scriptedHeap (ds : list Document) (script : list (@Answer string))
    : Heap unit (list (@Answer string)) string :=
  {| self := NewRAGPipeline scriptedClient "document" "read" ds;
     service := script; issued := [] |}.

Definition grantingHeap (ds : list Document) : Heap unit unit string :=
  {| self := NewRAGPipeline grantingClient "document" "read" ds;
     service := (); issued := [] |}.

(** The seeded service after seven calls. *)
Definition laterHeap : Heap unit nat string :=
  {| self := self seededHeap; service := 7%nat; issued := [] |}.

Definition has : @Answer string :=
  inl {| Permissionship := PERMISSIONSHIP_HAS_PERMISSION |}.
Definition no : @Answer string :=
  inl {| Permissionship := PERMISSIONSHIP_NO_PERMISSION |}.
Definition unspecified : @Answer string :=
  inl {| Permissionship := PERMISSIONSHIP_UNSPECIFIED |}.
Definition conditional : @Answer string :=
  inl {| Permissionship := PERMISSIONSHIP_CONDITIONAL_PERMISSION |}.
Definition down : @Answer string := inr "connection refused".

Definition mixedHeap : Heap unit (list (@Answer string)) string :=
  scriptedHeap [doc1; orphan; doc2; doc3] [has; no; has].

Definition orphanHeap : Heap unit unit string :=
  grantingHeap [doc1; orphan; doc3].

(** Go's [ToLower] outside ASCII is not exercised by the bench. *)
Definition asciiOnly : string -> string := λ s, s.

(** The same document twice in the collection. *)
Definition twiceHeap : Heap unit (list (@Answer string)) string :=
  scriptedHeap [doc1; doc1] [has; no].

(** A collection in which nothing can be checked. *)
Definition uncheckedHeap : Heap unit (list (@Answer string)) string :=
  scriptedHeap [orphan; document "doc7" "Public list." "doc7"] [has; has].

(** The response of the granting service. *)
Definition alwaysHas (req : CheckPermissionRequest) : CheckPermissionResponse :=
  {| Permissionship := PERMISSIONSHIP_HAS_PERMISSION |}.

End Fixture.

Example Index_found : Index "chicken" "ken" = 4.
Proof. reflexivity. Qed.

Example Index_missing : Index "chicken" "dmr" = -1.
Proof. reflexivity. Qed.

Example SplitN_two : SplitN "a:b:c" ":" 2 = ["a"; "b:c"].
Proof. reflexivity. Qed.

Example SplitN_none : SplitN "abc" ":" 2 = ["abc"].
Proof. reflexivity. Qed.

Example SplitN_empty : SplitN "" ":" 2 = [""].
Proof. reflexivity. Qed.

Example SplitN_all : SplitN "a,b,c" "," (-1) = ["a"; "b"; "c"].
Proof. reflexivity. Qed.

Example ToLower_ascii : ToLower (fun s => s) "RoadMap 2025" = "roadmap 2025".
Proof. reflexivity. Qed.

Import Fixture.

Example Query_emilia_roadmap :
  (Query asciiOnly () "emilia" "roadmap" seededHeap).1 = ([doc1], None).
Proof. vm_compute. reflexivity. Qed.

(** ** Facts about the string functions *)

Section StringFacts.

#[local] Arguments String.append : simpl nomatch.

Lemma app_String (c : ascii) (s t : string) :
  String c s +:+ t = String c (s +:+ t).
Proof. reflexivity. Qed.

Lemma app_empty_inv (s t : string) : s +:+ t = "" → s = "" ∧ t = "".
Proof. destruct s; simpl; [auto | discriminate]. Qed.

Lemma HasPrefix_spec (s prefix : string) :
  HasPrefix s prefix = true ↔ ∃ post, s = prefix +:+ post.
Proof.
  revert s. induction prefix as [|p prefix IH]; intros s; simpl.
  - split; [intros _; by exists s | done].
  - destruct s as [|c s].
    + split; [done | intros [post Hpost]; discriminate].
    + rewrite andb_true_iff, IH. split.
      * intros [Hc [post ->]]. apply Ascii.eqb_eq in Hc as ->. by exists post.
      * intros [post Hpost]. injection Hpost as -> ->.
        split; [apply Ascii.eqb_refl | by exists post].
Qed.

Lemma HasPrefix_empty (s : string) : HasPrefix s "" = true.
Proof. by destruct s. Qed.

(** What the scan of [Index] finds: nothing when [substr] does not occur,
    and otherwise the leftmost occurrence. *)
Lemma indexFrom_spec (s substr : string) (i : Z) :
  (indexFrom i s substr = -1 ∧ ¬ substring_of substr s) ∨
  (∃ pre post,
     s = pre +:+ substr +:+ post ∧
     indexFrom i s substr = i + len pre ∧
     ∀ pre' post', s = pre' +:+ substr +:+ post' →
                   (String.length pre ≤ String.length pre')%nat).
Proof.
  revert i. induction s as [|c s IH]; intros i.
  - simpl. destruct (HasPrefix "" substr) eqn:Hp.
    + right. apply HasPrefix_spec in Hp as [post Hpost].
      exists "", post. repeat split; [done | unfold len; simpl; lia |].
      intros; simpl; lia.
    + left. split; [done |]. intros (pre & post & Heq).
      symmetry in Heq. apply app_empty_inv in Heq as [-> Heq]. simpl in Heq.
      assert (HasPrefix "" substr = true) by (apply HasPrefix_spec; eauto).
      congruence.
  - cbn [indexFrom]. destruct (HasPrefix (String c s) substr) eqn:Hp.
    + right. apply HasPrefix_spec in Hp as [post Hpost].
      exists "", post. repeat split; [done | unfold len; simpl; lia |].
      intros; simpl; lia.
    + assert (Hhead : ∀ post, String c s ≠ substr +:+ post).
      { intros post Heq.
        assert (HasPrefix (String c s) substr = true)
          by (apply HasPrefix_spec; eauto).
        congruence. }
      destruct (IH (i + 1)) as [[Hidx Hno] | (pre & post & Heq & Hidx & Hmin)].
      * left. split; [done |]. intros (pre & post & Heq).
        destruct pre as [|c' pre]; simpl in Heq.
        -- by apply (Hhead post).
        -- injection Heq as _ Heq. apply Hno. by exists pre, post.
      * right. exists (String c pre), post. repeat split.
        -- by rewrite Heq.
        -- rewrite Hidx. unfold len. simpl String.length. lia.
        -- intros pre' post' Heq'. destruct pre' as [|c' pre']; simpl in Heq'.
           ++ by destruct (Hhead post').
           ++ injection Heq' as _ Heq'. apply Hmin in Heq'. simpl. lia.
Qed.

Lemma Contains_spec (s substr : string) :
  Contains s substr = true ↔ substring_of substr s.
Proof.
  unfold Contains, Index.
  destruct (indexFrom_spec s substr 0)
    as [[-> Hno] | (pre & post & Heq & -> & _)].
  - split; [done | by intros ?%Hno].
  - split; [intros _; by exists pre, post | intros _].
    apply Z.leb_le. unfold len. lia.
Qed.

Lemma Contains_empty (s : string) : Contains s "" = true.
Proof. apply Contains_spec. by exists "", s. Qed.

Lemma Contains_false (s substr : string) :
  Contains s substr = false ↔ ¬ substring_of substr s.
Proof.
  rewrite <- Contains_spec. destruct (Contains s substr); split; try done.
Qed.

Lemma sliceTo_app (pre rest : string) :
  sliceTo (String.length pre) (pre +:+ rest) = pre.
Proof. induction pre as [|c pre IH]; simpl; [by destruct rest | by rewrite IH]. Qed.

Lemma sliceFrom_app (pre rest : string) :
  sliceFrom (String.length pre) (pre +:+ rest) = rest.
Proof. induction pre as [|c pre IH]; simpl; [by destruct rest | done]. Qed.

Lemma app_assoc_string (a b c : string) : (a +:+ b) +:+ c = a +:+ b +:+ c.
Proof. induction a as [|x a IH]; simpl; [done | by rewrite IH]. Qed.

Lemma length_app_string (a b : string) :
  String.length (a +:+ b) = (String.length a + String.length b)%nat.
Proof. induction a as [|x a IH]; simpl; [done | by rewrite IH]. Qed.

(** [SplitN(s, ":", 2)]: the string itself when it has no colon, and
    otherwise what stands before and after its first colon. *)
Lemma SplitN_colon_spec (s : string) :
  (Contains s ":" = false ∧ SplitN s ":" 2 = [s]) ∨
  (∃ before after,
     s = before +:+ ":" +:+ after ∧ Contains before ":" = false ∧
     SplitN s ":" 2 = [before; after]).
Proof.
  unfold SplitN. cbn [Z.eqb Z.ltb Z.compare].
  destruct (indexFrom_spec s ":" 0)
    as [[Hidx Hno] | (pre & post & Heq & Hidx & Hmin)].
  - left. split; [by apply Contains_false |].
    destruct (len s + 1 <? 2); simpl;
      try (destruct (Z.to_nat (len s + 1 - 1)); simpl);
      unfold Index; by rewrite ?Hidx.
  - right. exists pre, post. split; [done |]. split.
    + apply Contains_false. intros (p & q & Hpq).
      assert (String.length pre ≤ String.length p)%nat as Hle.
      { apply (Hmin p (q +:+ ":" +:+ post)).
        rewrite Heq, Hpq. by rewrite !app_assoc_string. }
      rewrite Hpq, !length_app_string in Hle. simpl in Hle. lia.
    + assert ((len s + 1 <? 2) = false) as ->.
      { apply Z.ltb_ge. unfold len. rewrite Heq, length_app_string.
        simpl String.length. lia. }
      change (Z.to_nat (2 - 1)) with 1%nat. cbn [splitLoop].
      unfold Index. rewrite Hidx.
      assert ((0 + len pre <? 0) = false) as -> by (apply Z.ltb_ge; unfold len; lia).
      f_equal.
      * replace (Z.to_nat (0 + len pre)) with (String.length pre)
          by (unfold len; lia).
        by rewrite Heq, sliceTo_app.
      * f_equal.
        replace (Z.to_nat (0 + len pre + len ":"))
          with (String.length (pre +:+ ":"))
          by (rewrite length_app_string; unfold len; simpl; lia).
        by rewrite Heq, <- app_assoc_string, sliceFrom_app.
Qed.

Lemma colon_head (s : string) : Contains (String ":" s) ":" = true.
Proof. apply Contains_spec. by exists "", s. Qed.

Lemma Contains_tail (c : ascii) (s substr : string) :
  Contains (String c s) substr = false → Contains s substr = false.
Proof.
  rewrite !Contains_false. intros Hno (pre & post & ->). apply Hno.
  by exists (String c pre), post.
Qed.

(** A string is cut at its first colon in one way only. *)
Lemma first_colon_unique (before after before' after' : string) :
  before +:+ ":" +:+ after = before' +:+ ":" +:+ after' →
  Contains before ":" = false → Contains before' ":" = false →
  before = before' ∧ after = after'.
Proof.
  revert before'. induction before as [|c before IH]; intros before' Heq Hno Hno'.
  - destruct before' as [|c' before']; simpl in Heq.
    + by injection Heq as ->.
    + injection Heq as <- _. by rewrite colon_head in Hno'.
  - destruct before' as [|c' before']; simpl in Heq.
    + injection Heq as -> _. by rewrite colon_head in Hno.
    + injection Heq as -> Heq.
      destruct (IH before' Heq) as [-> ->];
        [by eapply Contains_tail | by eapply Contains_tail | done].
Qed.

End StringFacts.

(** ** Facts about identity resolution *)

Section IdentityFacts.

(** The three ways lines 53-64 end. *)
Lemma resolveIdentity_cases (d : Document) :
  let v := mapIndex (Metadata d) "spicedb_object" in
  (v = "" ∧ resolveIdentity d = None) ∨
  (v ≠ "" ∧ Contains v ":" = false ∧ SplitN v ":" 2 = [v] ∧
   resolveIdentity d = None) ∨
  (∃ before after,
     v = before +:+ ":" +:+ after ∧ Contains before ":" = false ∧
     SplitN v ":" 2 = [before; after] ∧
     resolveIdentity d = Some (before, after)).
Proof.
  intros v. unfold resolveIdentity. fold v.
  destruct (decide (v = "")) as [Hv | Hv]; [by left | right].
  destruct (SplitN_colon_spec v)
    as [[Hno Hsplit] | (before & after & Heq & Hno & Hsplit)].
  - left. rewrite Hsplit. by case_decide.
  - right. exists before, after. rewrite Hsplit. by case_decide.
Qed.

(** A reference [ty:id] whose [ty] has no colon resolves to [(ty, id)]. *)
Lemma reference_resolves (d : Document) (ty id : string) :
  Metadata d !! "spicedb_object" = Some (ty +:+ ":" +:+ id) →
  Contains ty ":" = false →
  resolveIdentity d = Some (ty, id).
Proof.
  intros Hlook Hty.
  destruct (resolveIdentity_cases d) as [[Hv _] | [(_ & Hno & _) | H]];
    unfold mapIndex in *; rewrite Hlook in *; simpl in *.
  - by destruct ty.
  - apply Contains_false in Hno. destruct Hno. by exists ty, id.
  - destruct H as (before & after & Heq & Hbefore & _ & ->).
    by destruct (first_colon_unique _ _ _ _ Heq Hty Hbefore) as [-> ->].
Qed.

(** Resolution fails exactly on a missing entry and on a value without a
    colon (the empty value is one). *)
Lemma resolveIdentity_None (d : Document) :
  resolveIdentity d = None ↔
  Metadata d !! "spicedb_object" = None ∨
  ∃ v, Metadata d !! "spicedb_object" = Some v ∧ Contains v ":" = false.
Proof.
  pose proof (resolveIdentity_cases d) as Hcases. cbn zeta in Hcases.
  unfold mapIndex in Hcases.
  destruct (Metadata d !! "spicedb_object") as [v|] eqn:Hlook; simpl in Hcases.
  - destruct Hcases as [[-> Hres] | [(_ & Hno & _ & Hres) | Hsome]].
    + split; [intros _; right; by exists "" | done].
    + split; [intros _; right; by exists v | done].
    + destruct Hsome as (before & after & Heq & _ & _ & Hres). rewrite Hres.
      split; [done |]. intros [? | (v' & Hv' & Hno)]; [done |].
      injection Hv' as <-. apply Contains_false in Hno. destruct Hno.
      by exists before, after.
  - destruct Hcases as [[_ Hres] | [(Hne & _) | Hsome]]; [by split; auto | done |].
    destruct Hsome as (before & after & Heq & _). by destruct before.
Qed.

End IdentityFacts.

(** ** Facts about the two loops *)

Section LoopFacts.
Context {Ctx World Err : Type}.
Variable unicodeToLower : string → string.

#[local] Abbreviation Heap := (Heap Ctx World Err).
#[local] Abbreviation Outcome := ((list Document * option Err) * Heap)%type.

Lemma retrievalLoop_filter (lq : string) (ds candidates : list Document) :
  retrievalLoop unicodeToLower lq ds candidates
  = candidates ++ filter (selects unicodeToLower lq) ds.
Proof.
  revert candidates. induction ds as [|d ds IH]; intros candidates; simpl.
  - by rewrite app_nil_r.
  - rewrite filter_cons. destruct (decide (selects unicodeToLower lq d)) as [Hd | Hd].
    + rewrite Hd, IH. by rewrite <- app_assoc.
    + apply not_true_is_false in Hd. by rewrite Hd, IH.
Qed.

Lemma retrieve_filter (collection : list Document) (query : string) :
  retrieve unicodeToLower collection query
  = filter (selects unicodeToLower (ToLower unicodeToLower query)) collection.
Proof. unfold retrieve. by rewrite retrievalLoop_filter. Qed.

Lemma authorizeLoop_nil ctx userID allowed (h : Heap) :
  authorizeLoop ctx userID [] allowed h = ((allowed, None), h).
Proof. reflexivity. Qed.

Lemma authorizeLoop_continue ctx userID d rest allowed (h : Heap) :
  resolveIdentity d = None →
  authorizeLoop ctx userID (d :: rest) allowed h
  = authorizeLoop ctx userID rest allowed h.
Proof. intros Hd. simpl. by rewrite Hd. Qed.

Lemma authorizeLoop_call ctx userID d rest allowed (h : Heap) identity :
  resolveIdentity d = Some identity →
  authorizeLoop ctx userID (d :: rest) allowed h
  = let req := requestIn h userID identity in
    let '(answer, w) :=
      CheckPermission (spiceClient (self h)) ctx req (service h) in
    let h' := afterCall h req answer w in
    match answer with
    | inr err => (([], Some err), h')
    | inl resp =>
        if decide (Permissionship resp = PERMISSIONSHIP_HAS_PERMISSION)
        then authorizeLoop ctx userID rest (allowed ++ [d]) h'
        else authorizeLoop ctx userID rest allowed h'
    end.
Proof.
  intros Hd. destruct identity as [objType objID].
  cbn [authorizeLoop]. rewrite Hd.
  unfold mbind, M_bind, readSelf, callCheckPermission, requestIn, requestFor.
  cbn [fst snd].
  destruct (CheckPermission _ ctx _ (service h)) as [[resp | err] w];
    [by case_decide | reflexivity].
Qed.

(** Induction along a run of the loop: the five things an iteration does. *)
Lemma authorizeLoop_run_ind ctx userID
    (P : list Document → list Document → Heap → Outcome → Prop) :
  (∀ allowed h, P [] allowed h ((allowed, None), h)) →
  (∀ d rest allowed h out,
     resolveIdentity d = None →
     P rest allowed h out → P (d :: rest) allowed h out) →
  (∀ d rest allowed h identity err w,
     resolveIdentity d = Some identity →
     CheckPermission (spiceClient (self h)) ctx (requestIn h userID identity)
                     (service h) = (inr err, w) →
     P (d :: rest) allowed h
       (([], Some err),
        afterCall h (requestIn h userID identity) (inr err) w)) →
  (∀ d rest allowed h identity resp w out,
     resolveIdentity d = Some identity →
     CheckPermission (spiceClient (self h)) ctx (requestIn h userID identity)
                     (service h) = (inl resp, w) →
     Permissionship resp = PERMISSIONSHIP_HAS_PERMISSION →
     P rest (allowed ++ [d])
       (afterCall h (requestIn h userID identity) (inl resp) w) out →
     P (d :: rest) allowed h out) →
  (∀ d rest allowed h identity resp w out,
     resolveIdentity d = Some identity →
     CheckPermission (spiceClient (self h)) ctx (requestIn h userID identity)
                     (service h) = (inl resp, w) →
     Permissionship resp ≠ PERMISSIONSHIP_HAS_PERMISSION →
     P rest allowed
       (afterCall h (requestIn h userID identity) (inl resp) w) out →
     P (d :: rest) allowed h out) →
  ∀ candidates allowed h,
    P candidates allowed h (authorizeLoop ctx userID candidates allowed h).
Proof.
  intros Hnil Hcont Herr Hhas Hno.
  induction candidates as [|d rest IH]; intros allowed h.
  - apply Hnil.
  - destruct (resolveIdentity d) as [identity|] eqn:Hd.
    + rewrite (authorizeLoop_call _ _ _ _ _ _ _ Hd). cbn zeta.
      destruct (CheckPermission _ ctx _ (service h)) as [[resp | err] w] eqn:Hcall.
      * case_decide.
        -- eapply Hhas; eauto.
        -- eapply Hno; eauto.
      * by eapply Herr.
    + rewrite (authorizeLoop_continue _ _ _ _ _ _ Hd). by apply Hcont.
Qed.

Lemma Query_unfold ctx userID query (h : Heap) :
  Query unicodeToLower ctx userID query h
  = authorizeLoop ctx userID
      (retrieve unicodeToLower (docs (self h)) query) [] h.
Proof. reflexivity. Qed.

(** The loop never writes to the pipeline. *)
Lemma authorizeLoop_frame ctx userID candidates allowed (h : Heap) :
  self (authorizeLoop ctx userID candidates allowed h).2 = self h.
Proof.
  revert candidates allowed h.
  apply (authorizeLoop_run_ind ctx userID (λ _ _ h out, self out.2 = self h));
    auto.
Qed.

(** The slice the loop returns: nil with an error, and otherwise [allowed]
    followed by some of the candidates that have an identity, in order. *)
Lemma authorizeLoop_shape ctx userID candidates allowed (h : Heap) :
  let out := authorizeLoop ctx userID candidates allowed h in
  (out.1.1 = [] ∧ out.1.2 ≠ None) ∨
  (out.1.2 = None ∧
   ∃ kept, out.1.1 = allowed ++ kept ∧ kept `sublist_of` checkable candidates).
Proof.
  revert candidates allowed h.
  apply (authorizeLoop_run_ind ctx userID (λ candidates allowed _ out,
    (out.1.1 = [] ∧ out.1.2 ≠ None) ∨
    (out.1.2 = None ∧
     ∃ kept, out.1.1 = allowed ++ kept ∧
             kept `sublist_of` checkable candidates))); unfold checkable.
  - intros allowed h. right. split; [done |]. exists [].
    by rewrite app_nil_r.
  - intros d rest allowed h out Hd IH. rewrite filter_cons_False; [done |].
    rewrite Hd. by intros [? ?].
  - intros. by left.
  - intros d rest allowed h identity resp w out Hd _ _
      [IH | (Hnone & kept & Hout & Hsub)]; [by left | right].
    split; [done |]. exists (d :: kept). rewrite Hout, <- app_assoc.
    split; [done |]. rewrite filter_cons_True by (rewrite Hd; eauto).
    by apply sublist_skip.
  - intros d rest allowed h identity resp w out Hd _ _
      [IH | (Hnone & kept & Hout & Hsub)]; [by left | right].
    split; [done |]. exists kept. split; [done |].
    rewrite filter_cons_True by (rewrite Hd; eauto).
    by apply sublist_cons.
Qed.

Lemma plannedRequests_continue perm userID d rest :
  resolveIdentity d = None →
  plannedRequests perm userID (d :: rest) = plannedRequests perm userID rest.
Proof. intros Hd. unfold plannedRequests. simpl. by rewrite Hd. Qed.

Lemma plannedRequests_call perm userID d rest identity :
  resolveIdentity d = Some identity →
  plannedRequests perm userID (d :: rest)
  = requestFor perm userID identity :: plannedRequests perm userID rest.
Proof. intros Hd. unfold plannedRequests. simpl. by rewrite Hd. Qed.

Lemma checkable_continue d rest :
  resolveIdentity d = None → checkable (d :: rest) = checkable rest.
Proof.
  intros Hd. unfold checkable. rewrite filter_cons_False; [done |].
  rewrite Hd. by intros [? ?].
Qed.

Lemma checkable_call d rest identity :
  resolveIdentity d = Some identity →
  checkable (d :: rest) = d :: checkable rest.
Proof.
  intros Hd. unfold checkable. rewrite filter_cons_True; [done |].
  rewrite Hd. eauto.
Qed.

Lemma length_plannedRequests perm userID candidates :
  length (plannedRequests perm userID candidates)
  = length (checkable candidates).
Proof.
  induction candidates as [|d rest IH]; [done |].
  destruct (resolveIdentity d) as [identity|] eqn:Hd.
  - rewrite (plannedRequests_call _ _ _ _ _ Hd), (checkable_call _ _ _ Hd).
    simpl. by rewrite IH.
  - by rewrite plannedRequests_continue, checkable_continue.
Qed.

(** The case of [authorizeLoop_trace] for a call that got a response: the
    call goes in front of the calls of the rest of the run. *)
Ltac extend_trace h userID identity resp Hd Hperm IH :=
  let calls := fresh "calls" in
  let Hcalls := fresh "Hcalls" in
  let Hpre := fresh "Hpre" in
  let Hout := fresh "Hout" in
  destruct IH as (calls & Hcalls & Hpre & Hout);
  exists ((requestIn h userID identity, inl resp) :: calls);
  rewrite (plannedRequests_call _ _ _ _ _ Hd), (checkable_call _ _ _ Hd);
  simpl in *; rewrite Hcalls, <- app_assoc; split; [done |];
  split; [by apply prefix_cons |];
  match goal with |- match ?e with _ => _ end => destruct e end;
  [ destruct Hout as (? & before & req & -> & ?);
    split; [done |];
    exists ((requestIn h userID identity, inl resp) :: before), req;
    split; [done | by constructor]
  | destruct Hout as (? & Heq & Hres);
    first [rewrite bool_decide_true by done | rewrite bool_decide_false by done];
    repeat split;
      [by constructor
      | unfold requestIn; f_equal; exact Heq
      | by rewrite Hres, <- ?app_assoc] ].

(** The calls of a run of the loop, and what the loop makes of their
    answers. *)
Lemma authorizeLoop_trace ctx userID candidates allowed (h : Heap) :
  loopTrace userID candidates allowed h
    (authorizeLoop ctx userID candidates allowed h).
Proof.
  revert candidates allowed h.
  apply (authorizeLoop_run_ind ctx userID (loopTrace userID)); unfold loopTrace.
  - intros allowed h. exists []. simpl. rewrite !app_nil_r.
    repeat split; [done | constructor].
  - intros d rest allowed h out Hd (calls & Hcalls & Hpre & Hout).
    exists calls. rewrite plannedRequests_continue, checkable_continue by done.
    done.
  - intros d rest allowed h identity err w Hd Hcall.
    exists [(requestIn h userID identity, inr err)].
    rewrite (plannedRequests_call _ _ _ _ _ Hd). cbn [fst snd afterCall issued].
    repeat split.
    + by apply prefix_cons, prefix_nil.
    + exists [], (requestIn h userID identity). by split; [| constructor].
  - intros d rest allowed h identity resp w out Hd Hcall Hperm IH.
    extend_trace h userID identity resp Hd Hperm IH.
  - intros d rest allowed h identity resp w out Hd Hcall Hperm IH.
    extend_trace h userID identity resp Hd Hperm IH.
Qed.

(** Two runs of the loop over the same candidates, against services
    whose states are related by [R] and which, from related states, give
    the same answer and move to related states. *)
Lemma authorizeLoop_related (R : World → World → Prop) ctx1 ctx2 userID
    candidates allowed (h1 h2 : Heap) :
  permission (self h1) = permission (self h2) →
  (∀ req w1 w2, R w1 w2 →
     let a1 := CheckPermission (spiceClient (self h1)) ctx1 req w1 in
     let a2 := CheckPermission (spiceClient (self h2)) ctx2 req w2 in
     a1.1 = a2.1 ∧ R a1.2 a2.2) →
  R (service h1) (service h2) →
  let out1 := authorizeLoop ctx1 userID candidates allowed h1 in
  let out2 := authorizeLoop ctx2 userID candidates allowed h2 in
  out1.1 = out2.1 ∧ R (service out1.2) (service out2.2) ∧
  ∃ calls, issued out1.2 = issued h1 ++ calls ∧
           issued out2.2 = issued h2 ++ calls.
Proof.
  revert allowed h1 h2.
  induction candidates as [|d rest IH]; intros allowed h1 h2 Hperm Hsim HR.
  - simpl. repeat split; [done |]. exists []. by rewrite !app_nil_r.
  - destruct (resolveIdentity d) as [identity|] eqn:Hd.
    + rewrite !(authorizeLoop_call _ _ _ _ _ _ _ Hd). cbn zeta.
      unfold requestIn. rewrite <- Hperm.
      set (req := requestFor (permission (self h1)) userID identity).
      specialize (Hsim req _ _ HR) as Hstep. cbn zeta in Hstep.
      destruct (CheckPermission (spiceClient (self h1)) ctx1 req (service h1))
        as [a1 w1].
      destruct (CheckPermission (spiceClient (self h2)) ctx2 req (service h2))
        as [a2 w2].
      simpl in Hstep. destruct Hstep as [<- HR'].
      assert (∀ allowed',
        let out1 := authorizeLoop ctx1 userID rest allowed'
                      (afterCall h1 req a1 w1) in
        let out2 := authorizeLoop ctx2 userID rest allowed'
                      (afterCall h2 req a1 w2) in
        out1.1 = out2.1 ∧ R (service out1.2) (service out2.2) ∧
        ∃ calls, issued out1.2 = issued h1 ++ calls ∧
                 issued out2.2 = issued h2 ++ calls) as Hrest.
      { intros allowed'.
        destruct (IH allowed' (afterCall h1 req a1 w1) (afterCall h2 req a1 w2))
          as (Hout & HRout & calls & Hc1 & Hc2); [done .. |].
        repeat split; [done .. |]. exists ((req, a1) :: calls).
        simpl in Hc1, Hc2. by rewrite Hc1, Hc2, <- !app_assoc. }
      destruct a1 as [resp | err].
      * case_decide; apply Hrest.
      * repeat split; [done |]. by exists [(req, inr err)].
    + rewrite !(authorizeLoop_continue _ _ _ _ _ _ Hd). by apply IH.
Qed.

(** A run over [front ++ back] is a run over [front] followed, when it
    ends without an error, by a run over [back]. *)
Lemma authorizeLoop_app ctx userID front back allowed (h : Heap) :
  authorizeLoop ctx userID (front ++ back) allowed h
  = let out := authorizeLoop ctx userID front allowed h in
    match out.1.2 with
    | None => authorizeLoop ctx userID back out.1.1 out.2
    | Some _ => out
    end.
Proof.
  revert front allowed h.
  apply (authorizeLoop_run_ind ctx userID (λ front allowed h out,
    authorizeLoop ctx userID (front ++ back) allowed h
    = match out.1.2 with
      | None => authorizeLoop ctx userID back out.1.1 out.2
      | Some _ => out
      end)).
  - done.
  - intros d rest allowed h out Hd IH.
    by rewrite <- app_comm_cons, (authorizeLoop_continue _ _ _ _ _ _ Hd).
  - intros d rest allowed h identity err w Hd Hcall.
    rewrite <- app_comm_cons, (authorizeLoop_call _ _ _ _ _ _ _ Hd).
    cbn zeta. by rewrite Hcall.
  - intros d rest allowed h identity resp w out Hd Hcall Hperm IH.
    rewrite <- app_comm_cons, (authorizeLoop_call _ _ _ _ _ _ _ Hd).
    cbn zeta. rewrite Hcall. by rewrite decide_True.
  - intros d rest allowed h identity resp w out Hd Hcall Hperm IH.
    rewrite <- app_comm_cons, (authorizeLoop_call _ _ _ _ _ _ _ Hd).
    cbn zeta. rewrite Hcall. by rewrite decide_False.
Qed.

(** ** The retrieval pass *)

(** C5. The empty query selects every document: the candidates of the
    empty query are the whole collection, in order. *)
Theorem retrieve_empty_query (collection : list Document) :
  retrieve unicodeToLower collection "" = collection.
Proof.
  rewrite retrieve_filter. change (ToLower unicodeToLower "") with "".
  induction collection as [|d ds IH]; [done |].
  rewrite filter_cons_True, IH; [done |]. apply Contains_empty.
Qed.

Lemma retrieve_sublist (collection : list Document) (query : string) :
  retrieve unicodeToLower collection query `sublist_of` collection.
Proof. rewrite retrieve_filter. apply sublist_filter. Qed.

(** ** The query *)

(** C1. When [Query] returns without an error, the documents it returns
    are a subsequence of the candidates of the retrieval pass, and the
    candidates are a subsequence of the collection: the documents come in
    the order of the collection. *)
Theorem Query_order_preserved ctx userID query (h : Heap)
    (result : list Document) (h' : Heap) :
  Query unicodeToLower ctx userID query h = ((result, None), h') →
  result `sublist_of` retrieve unicodeToLower (docs (self h)) query ∧
  retrieve unicodeToLower (docs (self h)) query `sublist_of` docs (self h).
Proof.
  intros Hrun. split; [| apply retrieve_sublist].
  rewrite Query_unfold in Hrun.
  destruct (authorizeLoop_shape ctx userID
              (retrieve unicodeToLower (docs (self h)) query) [] h)
    as [[_ Herr] | (_ & kept & Hres & Hsub)]; rewrite Hrun in *; simpl in *.
  - done.
  - subst result. etrans; [exact Hsub |]. apply sublist_filter.
Qed.

(** C9. [Query] writes to nothing of the pipeline: after the call, with or
    without an error, the pipeline behind the receiver (collection,
    resource type, permission, client) is the one before the call, and
    every document returned is a document of the collection, with the id,
    text and metadata it has there. *)
Theorem Query_mutates_nothing ctx userID query (h : Heap) :
  let out := Query unicodeToLower ctx userID query h in
  self out.2 = self h ∧
  docs (self out.2) = docs (self h) ∧
  resourceType (self out.2) = resourceType (self h) ∧
  permission (self out.2) = permission (self h) ∧
  ∀ d, d ∈ out.1.1 → d ∈ docs (self h).
Proof.
  intros out. unfold out. rewrite Query_unfold.
  assert (self (authorizeLoop ctx userID
                  (retrieve unicodeToLower (docs (self h)) query) [] h).2
          = self h) as Hself by apply authorizeLoop_frame.
  rewrite Hself. repeat split. intros d Hd.
  destruct (authorizeLoop_shape ctx userID
              (retrieve unicodeToLower (docs (self h)) query) [] h)
    as [[Hnil _] | (_ & kept & Hres & Hsub)].
  - rewrite Hnil in Hd. by apply elem_of_nil in Hd.
  - rewrite Hres in Hd. simpl in Hd.
    pose proof (elem_of_sublist _ _ _ Hd Hsub) as Hcand.
    apply list_elem_of_filter in Hcand as [_ Hcand].
    exact (elem_of_sublist _ _ _ Hcand (retrieve_sublist _ _)).
Qed.

Lemma Forall_answered_not_erred
    (calls : list (CheckPermissionRequest * @Answer Err)) :
  Forall answered calls ↔ ¬ Exists erred calls.
Proof.
  rewrite <- Forall_Exists_neg. apply Forall_proper; [| done].
  intros [req [resp | err]]; unfold answered, erred; simpl; tauto.
Qed.

(** C2. Let [calls] be the permission checks a run of [Query] issues, in
    order; they are sent for the candidates that have an identity, in the
    order of the candidates.  If the check number [n] fails with [err],
    then [Query] returns the nil slice with [err] and check [n] is the
    last one issued.  [Query] returns an error exactly when one of the
    checks it issued failed. *)
Theorem Query_fail_fast ctx userID query (h : Heap) :
  let out := Query unicodeToLower ctx userID query h in
  ∃ calls : list (CheckPermissionRequest * Answer),
    issued out.2 = issued h ++ calls ∧
    calls.*1 `prefix_of`
      plannedRequests (permission (self h)) userID
        (retrieve unicodeToLower (docs (self h)) query) ∧
    (∀ (n : nat) req err,
       calls !! n = Some (req, inr err) →
       out.1 = ([], Some err) ∧ length calls = S n) ∧
    (out.1.2 ≠ None ↔ Exists erred calls).
Proof.
  intros out. unfold out. rewrite Query_unfold.
  destruct (authorizeLoop_trace ctx userID
              (retrieve unicodeToLower (docs (self h)) query) [] h)
    as (calls & Hcalls & Hpre & Hout).
  exists calls. split; [done |]. split; [done |].
  destruct (authorizeLoop _ _ _ _ _) as [[result [err|]] h']; simpl in *.
  - destruct Hout as (-> & before & req & -> & Hbefore). split.
    + intros n req' err' Hn.
      destruct (decide (n < length before)%nat) as [Hlt | Hge].
      * rewrite lookup_app_l in Hn by done.
        rewrite Forall_lookup in Hbefore. by apply Hbefore in Hn.
      * rewrite lookup_app_r in Hn by lia.
        apply list_lookup_singleton_Some in Hn as [Hn Heq].
        injection Heq as -> ->. rewrite length_app. simpl. split; [done | lia].
    + split; [intros _ | done].
      apply Exists_app. right. by apply Exists_cons_hd.
  - destruct Hout as (Hall & _ & _). split.
    + intros n req err Hn. rewrite Forall_lookup in Hall. by apply Hall in Hn.
    + split; [done |]. by apply Forall_answered_not_erred in Hall.
Qed.

(** C10. Let [calls] be the permission checks a run of [Query] issues.
    If every one of them got a response, whatever the permissionship in
    it, then [Query] returns no error, and it returns exactly the checked
    candidates whose response has the permissionship HAS_PERMISSION: a
    response with any other value (NO_PERMISSION, UNSPECIFIED,
    CONDITIONAL_PERMISSION, or any other number) leaves its candidate out
    and the loop goes on. *)
Theorem Query_keeps_has_permission_only ctx userID query (h : Heap) :
  let out := Query unicodeToLower ctx userID query h in
  ∃ calls : list (CheckPermissionRequest * Answer),
    issued out.2 = issued h ++ calls ∧
    (Forall answered calls →
     out.1 = (grantedDocs
                (checkable (retrieve unicodeToLower (docs (self h)) query))
                calls, None) ∧
     length calls
     = length (checkable (retrieve unicodeToLower (docs (self h)) query))).
Proof.
  intros out. unfold out. rewrite Query_unfold.
  destruct (authorizeLoop_trace ctx userID
              (retrieve unicodeToLower (docs (self h)) query) [] h)
    as (calls & Hcalls & Hpre & Hout).
  exists calls. split; [done |]. intros Hall.
  destruct (authorizeLoop _ _ _ _ _) as [[result [err|]] h']; simpl in *.
  - destruct Hout as (_ & before & req & -> & _).
    apply Forall_app in Hall as [_ Hlast]. by inversion Hlast.
  - destruct Hout as (_ & Hplan & ->). split; [done |].
    rewrite <- (length_fmap fst calls), Hplan.
    apply length_plannedRequests.
Qed.

(** C6. Identity resolution of a document is absent exactly when the
    [spicedb_object] entry is missing, or its value is empty, or the
    split of the value on the first colon does not give two parts, which
    is when the value has no colon; otherwise it is the pair of what
    stands before the first colon of the value and what stands after it:
    an entry [before:after] with no colon in [before] resolves to
    [(before, after)].  It is a function of the entry alone, and where it
    is absent the loop goes to the next candidate from the same store: no
    call is made and no error is returned. *)
Theorem resolveIdentity_spec (d : Document) :
  let entry := Metadata d !! "spicedb_object" in
  let v := mapIndex (Metadata d) "spicedb_object" in
  (resolveIdentity d = None ↔
     entry = None ∨ entry = Some "" ∨ length (SplitN v ":" 2) ≠ 2%nat) ∧
  (resolveIdentity d ≠ None →
     ∃ before after,
       v = before +:+ ":" +:+ after ∧ Contains before ":" = false ∧
       resolveIdentity d = Some (before, after)) ∧
  (∀ d', Metadata d' !! "spicedb_object" = entry →
         resolveIdentity d' = resolveIdentity d) ∧
  (∀ ctx userID rest allowed (h : Heap),
     resolveIdentity d = None →
     authorizeLoop ctx userID (d :: rest) allowed h
     = authorizeLoop ctx userID rest allowed h) ∧
  (length (SplitN v ":" 2) = 2%nat ↔ substring_of ":" v) ∧
  (resolveIdentity d = None ↔
     entry = None ∨ entry = Some "" ∨
     ∃ v', entry = Some v' ∧ ¬ substring_of ":" v') ∧
  (∀ before after,
     entry = Some (before +:+ ":" +:+ after) →
     ¬ substring_of ":" before →
     resolveIdentity d = Some (before, after)).
Proof.
  intros entry v. split; [| split; [| split; [| split; [| split; [| split]]]]].
  - pose proof (resolveIdentity_cases d) as Hcases. cbn zeta in Hcases.
    fold v in Hcases. subst entry. unfold mapIndex in v.
    destruct Hcases as [[Hv Hres] | [(Hne & _ & Hsplit & Hres) | Hsome]].
    + rewrite Hres. split; [intros _ | done].
      destruct (Metadata d !! "spicedb_object") as [v'|]; [| by left].
      right; left. simpl in v. by subst v v'.
    + rewrite Hres, Hsplit. split; [intros _ | done]. right; right. simpl. lia.
    + destruct Hsome as (before & after & Heq & _ & Hsplit & Hres).
      rewrite Hres, Hsplit. split; [done |].
      intros [Hnone | [Hempty | Hlen]]; [| | done].
      * subst v. rewrite Hnone in Heq. by destruct before.
      * subst v. rewrite Hempty in Heq. by destruct before.
  - intros Hsome.
    destruct (resolveIdentity_cases d)
      as [[_ Hres] | [(_ & _ & _ & Hres) | (before & after & Heq & Hno & _ & Hres)]];
      [done | done |].
    by exists before, after.
  - intros d' Hentry. unfold resolveIdentity, mapIndex. by rewrite Hentry.
  - intros. by apply authorizeLoop_continue.
  - destruct (SplitN_colon_spec v)
      as [[Hno ->] | (before & after & Heq & _ & ->)].
    + apply Contains_false in Hno. split; [done | by intros ?%Hno].
    + split; [intros _ | done]. by exists before, after.
  - rewrite resolveIdentity_None. subst entry. split.
    + intros [Hnone | (v' & Hv' & Hno)]; [by left |].
      right; right. exists v'. split; [done |]. by apply Contains_false.
    + intros [Hnone | [Hempty | (v' & Hv' & Hno)]]; [by left | |].
      * right. by exists "".
      * right. exists v'. split; [done |]. by apply Contains_false.
  - intros before after Hentry Hno. subst entry.
    apply Contains_false in Hno.
    destruct (resolveIdentity_cases d)
      as [[Hv _] | [(_ & Hnone & _) | (b' & a' & Heq & Hb' & _ & ->)]];
      unfold mapIndex in *; rewrite Hentry in *; simpl in *.
    + by destruct before.
    + apply Contains_false in Hnone. destruct Hnone. by exists before, after.
    + by destruct (first_colon_unique _ _ _ _ Heq Hno Hb') as [-> ->].
Qed.

Lemma elem_of_plannedRequests perm userID candidates req :
  req ∈ plannedRequests perm userID candidates →
  ∃ d identity, d ∈ candidates ∧ resolveIdentity d = Some identity ∧
                req = requestFor perm userID identity.
Proof.
  unfold plannedRequests. rewrite list_elem_of_omap.
  intros (d & Hd & Hreq).
  destruct (resolveIdentity d) as [identity|] eqn:Hres; [| done].
  injection Hreq as <-. by exists d, identity.
Qed.

(** Runs of the loop from two stores that differ in the collection or the
    resource type of the pipeline only. *)
Lemma authorizeLoop_same_client ctx userID candidates allowed (h1 h2 : Heap) :
  spiceClient (self h1) = spiceClient (self h2) →
  permission (self h1) = permission (self h2) →
  service h1 = service h2 →
  issued h1 = issued h2 →
  let out1 := authorizeLoop ctx userID candidates allowed h1 in
  let out2 := authorizeLoop ctx userID candidates allowed h2 in
  out1.1 = out2.1 ∧ service out1.2 = service out2.2 ∧
  issued out1.2 = issued out2.2.
Proof.
  intros Hclient Hperm Hservice Hissued.
  destruct (authorizeLoop_related eq ctx ctx userID candidates allowed h1 h2)
    as (Hout & Hw & calls & Hc1 & Hc2); [done | | done |].
  - intros req w1 w2 <-. by rewrite Hclient.
  - cbn zeta. by rewrite Hc1, Hc2, Hissued.
Qed.

(** The planned request number [n] is the request of the candidate
    number [n] among those that have an identity. *)
Lemma plannedRequests_lookup perm userID candidates (n : nat) req :
  plannedRequests perm userID candidates !! n = Some req →
  ∃ d identity,
    checkable candidates !! n = Some d ∧
    resolveIdentity d = Some identity ∧
    req = requestFor perm userID identity.
Proof.
  revert n. induction candidates as [|c rest IH]; intros n Hn; [done |].
  destruct (resolveIdentity c) as [identity|] eqn:Hc.
  - rewrite (plannedRequests_call _ _ _ _ _ Hc) in Hn.
    rewrite (checkable_call _ _ _ Hc).
    destruct n as [|n]; simpl in *.
    + injection Hn as <-. by exists c, identity.
    + by apply IH.
  - rewrite (plannedRequests_continue _ _ _ _ Hc) in Hn.
    rewrite (checkable_continue _ _ Hc). by apply IH.
Qed.

(** C7. Every permission check a run of [Query] issues asks for the
    permission configured in the pipeline, for the subject of type "user"
    whose id is the principal, on the resource whose type and id are the
    two parts of the reference of a candidate: the check number [n] is
    the one for the candidate number [n] among the candidates that have an
    identity, so that the checks follow, one for one and in order, the
    requests planned for the candidates.  The [resourceType] field of the
    pipeline plays no part: with any other value in it, the run returns
    the same, issues the same checks and leaves the service in the same
    state. *)
Theorem Query_check_requests ctx userID query (h : Heap) :
  let out := Query unicodeToLower ctx userID query h in
  ∃ calls : list (CheckPermissionRequest * Answer),
    issued out.2 = issued h ++ calls ∧
    (∀ req answer,
       (req, answer) ∈ calls →
       Permission req = permission (self h) ∧
       ObjectType (Object (Subject req)) = "user" ∧
       ObjectId (Object (Subject req)) = userID ∧
       ∃ d, d ∈ retrieve unicodeToLower (docs (self h)) query ∧
            resolveIdentity d
            = Some (ObjectType (Resource req), ObjectId (Resource req))) ∧
    (∀ rt,
       let out' := Query unicodeToLower ctx userID query
                     (withSelf (withResourceType rt (self h)) h) in
       out'.1 = out.1 ∧ service out'.2 = service out.2 ∧
       issued out'.2 = issued out.2) ∧
    calls.*1 `prefix_of`
      plannedRequests (permission (self h)) userID
        (retrieve unicodeToLower (docs (self h)) query) ∧
    (∀ (n : nat) req answer,
       calls !! n = Some (req, answer) →
       ∃ d objType objID,
         checkable (retrieve unicodeToLower (docs (self h)) query) !! n
         = Some d ∧
         resolveIdentity d = Some (objType, objID) ∧
         req = {| Resource := {| ObjectType := objType; ObjectId := objID |};
                  Permission := permission (self h);
                  Subject :=
                    {| Object := {| ObjectType := "user";
                                    ObjectId := userID |} |} |}).
Proof.
  intros out. unfold out. rewrite Query_unfold.
  destruct (authorizeLoop_trace ctx userID
              (retrieve unicodeToLower (docs (self h)) query) [] h)
    as (calls & Hcalls & Hpre & _).
  exists calls. split; [done |]. split; [| split; [| split]].
  - intros req answer Hin.
    assert (req ∈ calls.*1) as Hreq.
    { apply list_elem_of_fmap. by exists (req, answer). }
    destruct Hpre as [later Hplan].
    assert (req ∈ plannedRequests (permission (self h)) userID
                    (retrieve unicodeToLower (docs (self h)) query)) as Hp.
    { rewrite Hplan. apply elem_of_app. by left. }
    apply elem_of_plannedRequests in Hp as (d & [ty id] & Hd & Hres & ->).
    repeat split. by exists d.
  - intros rt. cbn zeta. rewrite Query_unfold.
    by apply authorizeLoop_same_client.
  - done.
  - intros n req answer Hn.
    assert (calls.*1 !! n = Some req) as Hreq
      by (by rewrite list_lookup_fmap, Hn).
    destruct Hpre as [later Hplan].
    assert (plannedRequests (permission (self h)) userID
              (retrieve unicodeToLower (docs (self h)) query) !! n = Some req)
      as Hp by (rewrite Hplan; by apply lookup_app_l_Some).
    apply plannedRequests_lookup in Hp as (d & [ty id] & Hd & Hres & ->).
    by exists d, ty, id.
Qed.

(** Two calls against services related by a simulation: from related
    states a request gets the same answer and leads to related states. *)
Lemma Query_simulated_services (R : World → World → Prop) ctx1 ctx2
    userID query (h1 h2 : Heap) :
  docs (self h1) = docs (self h2) →
  permission (self h1) = permission (self h2) →
  (∀ req w1 w2, R w1 w2 →
     let a1 := CheckPermission (spiceClient (self h1)) ctx1 req w1 in
     let a2 := CheckPermission (spiceClient (self h2)) ctx2 req w2 in
     a1.1 = a2.1 ∧ R a1.2 a2.2) →
  R (service h1) (service h2) →
  (Query unicodeToLower ctx1 userID query h1).1
  = (Query unicodeToLower ctx2 userID query h2).1.
Proof.
  intros Hdocs Hperm Hsim HR. rewrite !Query_unfold, Hdocs.
  by apply (authorizeLoop_related R).
Qed.

Lemma authorizeLoop_issued ctx userID candidates allowed (h : Heap) :
  ∃ calls, issued (authorizeLoop ctx userID candidates allowed h).2
           = issued h ++ calls.
Proof.
  destruct (authorizeLoop_trace ctx userID candidates allowed h)
    as (calls & Hcalls & _). by exists calls.
Qed.

Lemma app_nil_inv {A : Type} (l k : list A) : l = l ++ k → k = [].
Proof.
  intros Heq. apply (app_inv_head l). by rewrite app_nil_r.
Qed.

(** Two runs of the loop over the same candidates whose calls, taken in
    order, got the same answers: the runs return the same and made the
    same calls. *)
Lemma authorizeLoop_agree ctx1 ctx2 userID candidates allowed (h1 h2 : Heap)
    (calls1 calls2 : list (CheckPermissionRequest * Answer)) :
  permission (self h1) = permission (self h2) →
  issued (authorizeLoop ctx1 userID candidates allowed h1).2
  = issued h1 ++ calls1 →
  issued (authorizeLoop ctx2 userID candidates allowed h2).2
  = issued h2 ++ calls2 →
  (∀ (n : nat) call1 call2,
     calls1 !! n = Some call1 → calls2 !! n = Some call2 →
     call1.2 = call2.2) →
  (authorizeLoop ctx1 userID candidates allowed h1).1
  = (authorizeLoop ctx2 userID candidates allowed h2).1 ∧
  calls1 = calls2.
Proof.
  revert allowed h1 h2 calls1 calls2.
  induction candidates as [|d rest IH];
    intros allowed h1 h2 calls1 calls2 Hperm Hc1 Hc2 Hagree.
  - simpl in *. apply app_nil_inv in Hc1 as ->. by apply app_nil_inv in Hc2 as ->.
  - destruct (resolveIdentity d) as [identity|] eqn:Hd.
    + rewrite (authorizeLoop_call ctx1 userID d rest allowed h1 identity Hd)
        in Hc1 |- *.
      rewrite (authorizeLoop_call ctx2 userID d rest allowed h2 identity Hd)
        in Hc2 |- *.
      cbn zeta in *. unfold requestIn in *. rewrite <- Hperm in *.
      set (req := requestFor (permission (self h1)) userID identity) in *.
      destruct (CheckPermission (spiceClient (self h1)) ctx1 req (service h1))
        as [a1 w1].
      destruct (CheckPermission (spiceClient (self h2)) ctx2 req (service h2))
        as [a2 w2].
      assert (∃ rest1, calls1 = (req, a1) :: rest1) as [rest1 ->].
      { destruct a1 as [resp | err].
        - destruct (decide _);
            [destruct (authorizeLoop_issued ctx1 userID rest (allowed ++ [d])
                         (afterCall h1 req (inl resp) w1)) as [tr Htr]
            |destruct (authorizeLoop_issued ctx1 userID rest allowed
                         (afterCall h1 req (inl resp) w1)) as [tr Htr]];
            rewrite Htr in Hc1; simpl in Hc1; rewrite <- app_assoc in Hc1;
            apply app_inv_head in Hc1; by exists tr.
        - simpl in Hc1. apply app_inv_head in Hc1. by exists []. }
      assert (∃ rest2, calls2 = (req, a2) :: rest2) as [rest2 ->].
      { destruct a2 as [resp | err].
        - destruct (decide _);
            [destruct (authorizeLoop_issued ctx2 userID rest (allowed ++ [d])
                         (afterCall h2 req (inl resp) w2)) as [tr Htr]
            |destruct (authorizeLoop_issued ctx2 userID rest allowed
                         (afterCall h2 req (inl resp) w2)) as [tr Htr]];
            rewrite Htr in Hc2; simpl in Hc2; rewrite <- app_assoc in Hc2;
            apply app_inv_head in Hc2; by exists tr.
        - simpl in Hc2. apply app_inv_head in Hc2. by exists []. }
      pose proof (Hagree 0%nat (req, a1) (req, a2) eq_refl eq_refl) as Ha.
      simpl in Ha. subst a2.
      assert (∀ (n : nat) call1 call2,
                rest1 !! n = Some call1 → rest2 !! n = Some call2 →
                call1.2 = call2.2) as Hagree'
        by (intros n; apply (Hagree (S n))).
      assert (∀ allowed',
        issued (authorizeLoop ctx1 userID rest allowed'
                  (afterCall h1 req a1 w1)).2
        = issued h1 ++ (req, a1) :: rest1 →
        issued (authorizeLoop ctx2 userID rest allowed'
                  (afterCall h2 req a1 w2)).2
        = issued h2 ++ (req, a1) :: rest2 →
        (authorizeLoop ctx1 userID rest allowed' (afterCall h1 req a1 w1)).1
        = (authorizeLoop ctx2 userID rest allowed' (afterCall h2 req a1 w2)).1 ∧
        (req, a1) :: rest1 = (req, a1) :: rest2) as Hrest.
      { intros allowed' H1 H2.
        destruct (IH allowed' (afterCall h1 req a1 w1) (afterCall h2 req a1 w2)
                    rest1 rest2) as [Hout ->]; [done | | | done | done].
        - rewrite H1. simpl. by rewrite <- app_assoc.
        - rewrite H2. simpl. by rewrite <- app_assoc. }
      destruct a1 as [resp | err].
      * destruct (decide _); by apply Hrest.
      * simpl in *. apply app_inv_head in Hc1, Hc2.
        by injection Hc1 as <-; injection Hc2 as <-.
    + rewrite (authorizeLoop_continue ctx1 userID d rest allowed h1 Hd)
        in Hc1 |- *.
      rewrite (authorizeLoop_continue ctx2 userID d rest allowed h2 Hd)
        in Hc2 |- *.
      by apply IH.
Qed.

(** C8. Two calls of [Query] with the same principal and query, on
    pipelines with the same collection and permission, in which the
    service answers each check alike (the checks the two runs issue, taken
    in order, get the same answers) return the same slice and the same
    error, and issue the same checks.  Nothing is asked of the service
    beyond the checks the two runs issue. *)
Theorem Query_deterministic ctx1 ctx2 userID query (h1 h2 : Heap)
    (calls1 calls2 : list (CheckPermissionRequest * Answer)) :
  docs (self h1) = docs (self h2) →
  permission (self h1) = permission (self h2) →
  issued (Query unicodeToLower ctx1 userID query h1).2 = issued h1 ++ calls1 →
  issued (Query unicodeToLower ctx2 userID query h2).2 = issued h2 ++ calls2 →
  (∀ (n : nat) call1 call2,
     calls1 !! n = Some call1 → calls2 !! n = Some call2 →
     call1.2 = call2.2) →
  (Query unicodeToLower ctx1 userID query h1).1
  = (Query unicodeToLower ctx2 userID query h2).1 ∧
  calls1 = calls2.
Proof.
  rewrite !Query_unfold. intros Hdocs. rewrite Hdocs.
  apply authorizeLoop_agree.
Qed.

(** A candidate without an identity can be taken out of the candidates:
    the run is the same. *)
Lemma authorizeLoop_skip_unresolvable ctx userID front d back allowed
    (h : Heap) :
  resolveIdentity d = None →
  authorizeLoop ctx userID (front ++ d :: back) allowed h
  = authorizeLoop ctx userID (front ++ back) allowed h.
Proof.
  intros Hd. rewrite !authorizeLoop_app. cbn zeta.
  destruct (authorizeLoop ctx userID front allowed h).1.2; [done |].
  by apply authorizeLoop_continue.
Qed.

(** C3, as the code has it.  A document whose metadata has no
    [spicedb_object] entry, or whose value there has no colon (the empty
    value is one), is in no result of [Query], whatever its text, the
    principal and the answers of the service; and it is left out in
    silence: with the document taken out of the collection, [Query]
    returns the same slice and the same error, issues the same checks and
    leaves the service in the same state. *)
Theorem Query_excludes_unresolvable ctx userID query (h : Heap)
    (d : Document) :
  (Metadata d !! "spicedb_object" = None ∨
   ∃ v, Metadata d !! "spicedb_object" = Some v ∧ Contains v ":" = false) →
  let out := Query unicodeToLower ctx userID query h in
  (d ∉ out.1.1) ∧
  ∀ front back,
    docs (self h) = front ++ d :: back →
    let out' := Query unicodeToLower ctx userID query
                  (withSelf (withDocs (front ++ back) (self h)) h) in
    out'.1 = out.1 ∧ service out'.2 = service out.2 ∧
    issued out'.2 = issued out.2.
Proof.
  intros Hd%resolveIdentity_None out. unfold out. split.
  - rewrite Query_unfold. intros Hin.
    destruct (authorizeLoop_shape ctx userID
                (retrieve unicodeToLower (docs (self h)) query) [] h)
      as [[Hnil _] | (_ & kept & Hres & Hsub)].
    + rewrite Hnil in Hin. by apply elem_of_nil in Hin.
    + rewrite Hres in Hin. simpl in Hin.
      pose proof (elem_of_sublist _ _ _ Hin Hsub) as Hcand.
      apply list_elem_of_filter in Hcand as [Hsome _].
      rewrite Hd in Hsome. by destruct Hsome.
  - intros front back Hdocs. cbn zeta. rewrite !Query_unfold.
    cbn [withSelf withDocs self docs]. rewrite Hdocs, !retrieve_filter.
    rewrite !filter_app, filter_cons.
    assert (∀ candidates,
      let out1 := authorizeLoop ctx userID candidates []
                    (withSelf (withDocs (front ++ back) (self h)) h) in
      let out2 := authorizeLoop ctx userID candidates [] h in
      out1.1 = out2.1 ∧ service out1.2 = service out2.2 ∧
      issued out1.2 = issued out2.2) as Hsame
      by (intros; by apply authorizeLoop_same_client).
    destruct (decide (selects unicodeToLower _ d)).
    + rewrite (authorizeLoop_skip_unresolvable ctx userID _ d _ [] h Hd).
      apply Hsame.
    + apply Hsame.
Qed.

End LoopFacts.

(** ** Further properties of the query *)

Section QueryFacts.
Context {Ctx World Err : Type}.
Variable unicodeToLower : string → string.

#[local] Abbreviation Heap := (Heap Ctx World Err).

(** A run over candidates none of which has an identity. *)
Lemma authorizeLoop_nothing ctx userID candidates allowed (h : Heap) :
  Forall (λ d, resolveIdentity d = None) candidates →
  authorizeLoop ctx userID candidates allowed h = ((allowed, None), h).
Proof.
  induction 1 as [|d rest Hd _ IH]; [done |].
  by rewrite (authorizeLoop_continue _ _ _ _ _ _ Hd).
Qed.

(** Nothing to check.  When no document that matches the query has an
    identity (the collection is empty, or nothing matches, or the matching
    documents have no usable reference), [Query] returns the nil slice and
    no error, calls the service not once and leaves the store as it was. *)
Theorem Query_nothing_to_check ctx userID query (h : Heap) :
  (∀ d, d ∈ docs (self h) →
        selects unicodeToLower (ToLower unicodeToLower query) d →
        resolveIdentity d = None) →
  Query unicodeToLower ctx userID query h = (([], None), h).
Proof.
  intros Hnone. rewrite Query_unfold. apply authorizeLoop_nothing.
  rewrite retrieve_filter. apply Forall_forall. intros d Hd.
  apply list_elem_of_filter in Hd as [Hsel Hd]. by apply Hnone.
Qed.

(** A document among the granted ones has its call, with a response whose
    permissionship is HAS_PERMISSION, among the calls. *)
Lemma grantedDocs_elem perm userID candidates
    (calls : list (CheckPermissionRequest * @Answer Err)) d :
  calls.*1 = plannedRequests perm userID candidates →
  d ∈ grantedDocs (checkable candidates) calls →
  d ∈ candidates ∧
  ∃ identity resp,
    resolveIdentity d = Some identity ∧
    (requestFor perm userID identity, inl resp) ∈ calls ∧
    Permissionship resp = PERMISSIONSHIP_HAS_PERMISSION.
Proof.
  revert calls. induction candidates as [|c rest IH]; intros calls Hplan Hin.
  - by apply elem_of_nil in Hin.
  - destruct (resolveIdentity c) as [identity|] eqn:Hc.
    + rewrite (plannedRequests_call _ _ _ _ _ Hc) in Hplan.
      rewrite (checkable_call _ _ _ Hc) in Hin.
      destruct calls as [|[req answer] calls]; [done |].
      injection Hplan as -> Hplan. cbn [grantedDocs snd] in Hin.
      destruct answer as [resp | err]; cbn [grants] in Hin.
      * case_bool_decide as Hperm.
        -- apply elem_of_cons in Hin as [-> | Hin].
           ++ split; [by left |]. exists identity, resp.
              split; [done |]. split; [by left | done].
           ++ destruct (IH calls Hplan Hin) as (? & i & r & ? & ? & ?).
              split; [by right |]. exists i, r. split; [done |].
              split; [by right | done].
        -- destruct (IH calls Hplan Hin) as (? & i & r & ? & ? & ?).
           split; [by right |]. exists i, r. split; [done |].
           split; [by right | done].
      * destruct (IH calls Hplan Hin) as (? & i & r & ? & ? & ?).
        split; [by right |]. exists i, r. split; [done |].
        split; [by right | done].
    + rewrite (plannedRequests_continue _ _ _ _ Hc) in Hplan.
      rewrite (checkable_continue _ _ Hc) in Hin.
      destruct (IH calls Hplan Hin) as (? & Hrest). split; [by right | done].
Qed.

(** Only granted documents.  Every document [Query] returns is a document
    of the collection whose lower-cased text contains the lower-cased
    query, which has an identity, and for which this very run issued a
    check (configured permission, resource of the document, subject the
    principal) whose response has the permissionship HAS_PERMISSION. *)
Theorem Query_returns_only_granted ctx userID query (h : Heap) :
  let out := Query unicodeToLower ctx userID query h in
  ∃ calls : list (CheckPermissionRequest * Answer),
    issued out.2 = issued h ++ calls ∧
    ∀ d, d ∈ out.1.1 →
      d ∈ docs (self h) ∧
      selects unicodeToLower (ToLower unicodeToLower query) d ∧
      ∃ identity resp,
        resolveIdentity d = Some identity ∧
        (requestFor (permission (self h)) userID identity, inl resp) ∈ calls ∧
        Permissionship resp = PERMISSIONSHIP_HAS_PERMISSION.
Proof.
  intros out. unfold out. rewrite Query_unfold.
  destruct (authorizeLoop_trace ctx userID
              (retrieve unicodeToLower (docs (self h)) query) [] h)
    as (calls & Hcalls & _ & Hout).
  exists calls. split; [done |]. intros d Hd.
  destruct (authorizeLoop _ _ _ _ _) as [[result [err|]] h']; simpl in *.
  - destruct Hout as [-> _]. by apply elem_of_nil in Hd.
  - destruct Hout as (_ & Hplan & ->).
    destruct (grantedDocs_elem _ _ _ _ _ Hplan Hd) as (Hcand & Hgranted).
    rewrite retrieve_filter in Hcand.
    apply list_elem_of_filter in Hcand as [Hsel Hin]. done.
Qed.

Lemma length_grantedDocs (checked : list Document)
    (calls : list (CheckPermissionRequest * @Answer Err)) :
  (length (grantedDocs checked calls) ≤ length calls)%nat.
Proof.
  revert calls. induction checked as [|d checked IH]; intros [|call calls];
    simpl; try lia.
  specialize (IH calls). destruct (grants call.2); simpl; lia.
Qed.

(** Bounds.  A run of [Query] returns at most as many documents as it
    issued checks, issues at most one check for each candidate, and so at
    most one for each document of the collection. *)
Theorem Query_check_bound ctx userID query (h : Heap) :
  let out := Query unicodeToLower ctx userID query h in
  ∃ calls : list (CheckPermissionRequest * Answer),
    issued out.2 = issued h ++ calls ∧
    (length out.1.1 ≤ length calls)%nat ∧
    (length calls
     ≤ length (retrieve unicodeToLower (docs (self h)) query))%nat ∧
    (length (retrieve unicodeToLower (docs (self h)) query)
     ≤ length (docs (self h)))%nat.
Proof.
  intros out. unfold out. rewrite Query_unfold.
  destruct (authorizeLoop_trace ctx userID
              (retrieve unicodeToLower (docs (self h)) query) [] h)
    as (calls & Hcalls & Hpre & Hout).
  exists calls. split; [done |]. split; [| split].
  - destruct (authorizeLoop _ _ _ _ _) as [[result [err|]] h']; simpl in *.
    + destruct Hout as [-> _]. simpl. lia.
    + destruct Hout as (_ & _ & ->). apply length_grantedDocs.
  - apply prefix_length in Hpre.
    rewrite length_fmap, length_plannedRequests in Hpre.
    etrans; [exact Hpre |]. apply length_filter.
  - rewrite retrieve_filter. apply length_filter.
Qed.

(** No caching.  When [Query] returns without an error, the checks it
    issued are, in order, one for each candidate that has an identity:
    a resource that occurs twice among the candidates is checked twice. *)
Theorem Query_issues_planned_requests ctx userID query (h : Heap) result h' :
  Query unicodeToLower ctx userID query h = ((result, None), h') →
  ∃ calls : list (CheckPermissionRequest * Answer),
    issued h' = issued h ++ calls ∧
    calls.*1 = plannedRequests (permission (self h)) userID
                 (retrieve unicodeToLower (docs (self h)) query).
Proof.
  rewrite Query_unfold. intros Hrun.
  destruct (authorizeLoop_trace ctx userID
              (retrieve unicodeToLower (docs (self h)) query) [] h)
    as (calls & Hcalls & _ & Hout).
  rewrite Hrun in Hcalls, Hout. simpl in *. destruct Hout as (_ & Hplan & _).
  by exists calls.
Qed.

Lemma docIDs_sublist (ds1 ds2 : list Document) :
  ds1 `sublist_of` ds2 → docIDs ds1 `sublist_of` docIDs ds2.
Proof.
  induction 1; simpl; [constructor | by apply sublist_skip | by apply sublist_cons].
Qed.

(** Unique ids.  When the documents of the collection have pairwise
    distinct ids, so have the documents [Query] returns. *)
Theorem Query_unique_ids ctx userID query (h : Heap) :
  NoDup (docIDs (docs (self h))) →
  NoDup (docIDs (Query unicodeToLower ctx userID query h).1.1).
Proof.
  intros Hdup. rewrite Query_unfold.
  destruct (authorizeLoop_shape ctx userID
              (retrieve unicodeToLower (docs (self h)) query) [] h)
    as [[-> _] | (_ & kept & -> & Hsub)]; [constructor |].
  simpl. eapply sublist_NoDup; [exact Hdup |]. apply docIDs_sublist.
  etrans; [exact Hsub |]. etrans; [apply sublist_filter |].
  apply retrieve_sublist.
Qed.

(** A run against a service whose answer to a request is the response
    [respond req], whatever its state. *)
Lemma authorizeLoop_stateless ctx userID respond candidates allowed (h : Heap) :
  (∀ req w,
     (CheckPermission (spiceClient (self h)) ctx req w).1 = inl (respond req)) →
  (authorizeLoop ctx userID candidates allowed h).1
  = (allowed ++
       filter (λ d, permitted respond (permission (self h)) userID d = true)
              candidates,
     None).
Proof.
  revert allowed h. induction candidates as [|d rest IH]; intros allowed h Hans.
  - simpl. by rewrite app_nil_r.
  - destruct (resolveIdentity d) as [identity|] eqn:Hd.
    + assert (permitted respond (permission (self h)) userID d
              = bool_decide
                  (Permissionship (respond (requestIn h userID identity))
                   = PERMISSIONSHIP_HAS_PERMISSION)) as Hp
        by (unfold permitted; by rewrite Hd).
      rewrite (authorizeLoop_call _ _ _ _ _ _ _ Hd). cbn zeta.
      pose proof (Hans (requestIn h userID identity) (service h)) as Hnow.
      destruct (CheckPermission _ ctx _ (service h)) as [answer w].
      simpl in Hnow. subst answer.
      destruct (decide (Permissionship _ = _)) as [Hperm | Hperm].
      * rewrite filter_cons_True
          by (rewrite Hp; by apply bool_decide_eq_true).
        rewrite (IH _ (afterCall h _ _ w)) by exact Hans.
        by rewrite <- app_assoc.
      * rewrite filter_cons_False
          by (rewrite Hp, bool_decide_eq_true; done).
        by rewrite (IH _ (afterCall h _ _ w)) by exact Hans.
    + rewrite (authorizeLoop_continue _ _ _ _ _ _ Hd).
      rewrite filter_cons_False by (unfold permitted; by rewrite Hd).
      by apply IH.
Qed.

(** A service with stateless answers.  When the service answers every
    request with a response that depends on the request alone, [Query]
    returns no error and exactly the documents of the collection, in order,
    whose lower-cased text contains the lower-cased query, which have an
    identity, and whose request gets the permissionship HAS_PERMISSION. *)
Theorem Query_stateless_service ctx userID query respond (h : Heap) :
  (∀ req w,
     (CheckPermission (spiceClient (self h)) ctx req w).1 = inl (respond req)) →
  (Query unicodeToLower ctx userID query h).1
  = (filter (λ d, permitted respond (permission (self h)) userID d = true
                  ∧ selects unicodeToLower (ToLower unicodeToLower query) d)
            (docs (self h)),
     None).
Proof.
  intros Hans. rewrite Query_unfold.
  rewrite (authorizeLoop_stateless _ _ respond) by exact Hans.
  by rewrite retrieve_filter, list_filter_filter.
Qed.

(** A service that always responds.  When every call of the client gives a
    response, whatever the request and the state of the service, [Query]
    returns no error. *)
Theorem Query_no_error_when_answered ctx userID query (h : Heap) :
  (∀ req w,
     ∃ resp, (CheckPermission (spiceClient (self h)) ctx req w).1 = inl resp) →
  (Query unicodeToLower ctx userID query h).1.2 = None.
Proof.
  rewrite Query_unfold.
  apply (authorizeLoop_run_ind ctx userID (λ _ _ h out,
    (∀ req w,
       ∃ resp, (CheckPermission (spiceClient (self h)) ctx req w).1 = inl resp) →
    out.1.2 = None)); auto.
  clear h. intros d rest allowed h identity err w _ Hcall Hans.
  destruct (Hans (requestIn h userID identity) (service h)) as [resp Hresp].
  by rewrite Hcall in Hresp.
Qed.

(** What the loop has in [allowed] on entry is carried to the front of the
    slice it returns, and plays no other part. *)
Lemma authorizeLoop_allowed ctx userID candidates allowed (h : Heap) :
  authorizeLoop ctx userID candidates allowed h
  = let out := authorizeLoop ctx userID candidates [] h in
    ((match out.1.2 with None => allowed ++ out.1.1 | Some _ => [] end,
      out.1.2), out.2).
Proof.
  revert allowed h. induction candidates as [|d rest IH]; intros allowed h.
  - simpl. by rewrite app_nil_r.
  - destruct (resolveIdentity d) as [identity|] eqn:Hd.
    + rewrite !(authorizeLoop_call _ _ _ _ _ _ _ Hd). cbn zeta.
      destruct (CheckPermission _ ctx _ (service h)) as [[resp | err] w];
        [| done].
      case_decide; [| apply IH].
      rewrite (IH (allowed ++ [d])), (IH ([] ++ [d])). cbn zeta.
      destruct (authorizeLoop ctx userID rest [] _) as [[kept [err|]] h'];
        simpl; [done |]. by rewrite <- app_assoc.
    + rewrite !(authorizeLoop_continue _ _ _ _ _ _ Hd). apply IH.
Qed.

(** Collections compose.  [Query] over a collection [ds1 ++ ds2] is
    [Query] over [ds1] followed, when that returns no error, by [Query]
    over [ds2] against the service as the first run left it: the slices
    are appended, the first error is the error, and the checks issued and
    the final state of the service are those of the two runs in turn. *)
Theorem Query_over_app ctx userID query (h : Heap) (ds1 ds2 : list Document) :
  let run ds h :=
    Query unicodeToLower ctx userID query (withSelf (withDocs ds (self h)) h) in
  let out := run (ds1 ++ ds2) h in
  let out1 := run ds1 h in
  match out1.1.2 with
  | Some err =>
      out.1 = ([], Some err) ∧
      service out.2 = service out1.2 ∧ issued out.2 = issued out1.2
  | None =>
      let out2 := run ds2 out1.2 in
      out.1 = (match out2.1.2 with
               | None => out1.1.1 ++ out2.1.1
               | Some _ => []
               end, out2.1.2) ∧
      service out.2 = service out2.2 ∧ issued out.2 = issued out2.2
  end.
Proof.
  cbn beta zeta. rewrite !Query_unfold. cbn [withSelf withDocs self docs].
  rewrite !retrieve_filter, filter_app.
  set (lq := ToLower unicodeToLower query).
  set (h12 := withSelf (withDocs (ds1 ++ ds2) (self h)) h).
  set (h1 := withSelf (withDocs ds1 (self h)) h).
  rewrite authorizeLoop_app. cbn zeta.
  destruct (authorizeLoop_same_client ctx userID
              (filter (selects unicodeToLower lq) ds1) [] h12 h1)
    as (Hres & Hservice & Hissued); [done .. |].
  pose proof (authorizeLoop_frame ctx userID
                (filter (selects unicodeToLower lq) ds1) [] h12) as Hself12.
  pose proof (authorizeLoop_frame ctx userID
                (filter (selects unicodeToLower lq) ds1) [] h1) as Hself1.
  pose proof (authorizeLoop_shape ctx userID
                (filter (selects unicodeToLower lq) ds1) [] h1) as Hshape.
  cbn zeta in Hshape.
  destruct (authorizeLoop ctx userID _ [] h12) as [[kept12 err12] h12'].
  destruct (authorizeLoop ctx userID _ [] h1) as [[kept1 err1] h1'].
  simpl in *. injection Hres as -> ->.
  destruct err1 as [err|].
  - destruct Hshape as [[-> _] | [? _]]; done.
  - rewrite authorizeLoop_allowed. cbn zeta.
    destruct (authorizeLoop_same_client ctx userID
                (filter (selects unicodeToLower lq) ds2) [] h12'
                (withSelf (withDocs ds2 (self h1')) h1'))
      as (Hres2 & Hservice2 & Hissued2).
    + by rewrite Hself12, Hself1.
    + by rewrite Hself12, Hself1.
    + done.
    + done.
    + destruct (authorizeLoop ctx userID _ [] h12') as [[kept2 err2] h2'].
      destruct (authorizeLoop ctx userID _ [] (withSelf _ h1'))
        as [[kept2' err2'] h2''].
      simpl in *. by injection Hres2 as -> ->.
Qed.

End QueryFacts.

(** ** Further properties of the retrieval pass and of identity resolution *)

Section RetrievalFacts.
Variable unicodeToLower : string → string.

Lemma allBytes_app (p : ascii → bool) (s t : string) :
  allBytes p (s +:+ t) = allBytes p s && allBytes p t.
Proof.
  induction s as [|c s IH]; [done |].
  rewrite app_String. simpl. by rewrite IH, andb_assoc.
Qed.

Lemma mapBytes_app (f : ascii → ascii) (s t : string) :
  mapBytes f (s +:+ t) = mapBytes f s +:+ mapBytes f t.
Proof.
  induction s as [|c s IH]; [done |].
  rewrite app_String. simpl. by rewrite IH.
Qed.

Lemma length_mapBytes (f : ascii → ascii) (s : string) :
  String.length (mapBytes f s) = String.length s.
Proof. induction s as [|c s IH]; simpl; [done | by rewrite IH]. Qed.

Lemma mapBytes_lowerByte_id (s : string) :
  anyByte isUpperByte s = false → mapBytes lowerByte s = s.
Proof.
  induction s as [|c s IH]; [done |]. simpl.
  intros [Hc Hs]%orb_false_iff. rewrite IH by done.
  unfold lowerByte. by rewrite Hc.
Qed.

(** On a string of ASCII bytes [ToLower] lowers each byte. *)
Lemma ToLower_ascii_bytes (s : string) :
  isASCII s → ToLower unicodeToLower s = mapBytes lowerByte s.
Proof.
  unfold isASCII, ToLower. intros ->.
  destruct (anyByte isUpperByte s) eqn:Hupper; simpl; [done |].
  symmetry. by apply mapBytes_lowerByte_id.
Qed.

Lemma substring_of_length (sub s : string) :
  substring_of sub s → (String.length sub ≤ String.length s)%nat.
Proof. intros (pre & post & ->). rewrite !length_app_string. lia. Qed.

Lemma substring_of_trans (a b c : string) :
  substring_of a b → substring_of b c → substring_of a c.
Proof.
  intros (pre & post & ->) (pre' & post' & ->).
  exists (pre' +:+ pre), (post +:+ post'). by rewrite !app_assoc_string.
Qed.

(** A query longer than the text.  A document whose text (of ASCII bytes)
    is shorter than the query (of ASCII bytes) is not a candidate. *)
Theorem retrieve_query_longer_than_text
    (collection : list Document) (query : string) (d : Document) :
  isASCII (Text d) → isASCII query →
  (String.length (Text d) < String.length query)%nat →
  d ∉ retrieve unicodeToLower collection query.
Proof.
  intros Htext Hquery Hlen. rewrite retrieve_filter, list_elem_of_filter.
  intros [Hsel _]. unfold selects in Hsel.
  apply Contains_spec, substring_of_length in Hsel.
  rewrite !ToLower_ascii_bytes, !length_mapBytes in Hsel by done. lia.
Qed.

Lemma filter_sublist_impl {A : Type} (P Q : A → Prop)
    `{!∀ x, Decision (P x)} `{!∀ x, Decision (Q x)} (l : list A) :
  (∀ x, P x → Q x) → filter P l `sublist_of` filter Q l.
Proof.
  intros Himpl. induction l as [|x l IH]; [done |].
  rewrite !filter_cons. destruct (decide (P x)) as [HP | HP].
  - rewrite decide_True by auto. by apply sublist_skip.
  - destruct (decide (Q x)); [by apply sublist_cons | done].
Qed.

(** A longer query narrows.  For a query [query] of ASCII bytes and a
    contiguous part [part] of it, the candidates of [query] are a
    subsequence of the candidates of [part]. *)
Theorem retrieve_narrows (collection : list Document) (query part : string) :
  isASCII query → substring_of part query →
  retrieve unicodeToLower collection query
    `sublist_of` retrieve unicodeToLower collection part.
Proof.
  intros Hquery (pre & post & ->). rewrite !retrieve_filter.
  assert (isASCII part) as Hpart.
  { unfold isASCII in *. rewrite !allBytes_app in Hquery.
    by apply andb_true_iff in Hquery as [_ [? _]%andb_true_iff]. }
  apply filter_sublist_impl. intros d. unfold selects.
  rewrite !Contains_spec. apply substring_of_trans.
  rewrite !ToLower_ascii_bytes, !mapBytes_app by done.
  by exists (mapBytes lowerByte pre), (mapBytes lowerByte post).
Qed.

(** *** Letter case *)










Lemma isASCII_app (s t : string) : isASCII (s +:+ t) ↔ isASCII s ∧ isASCII t.
Proof. unfold isASCII. by rewrite allBytes_app, andb_true_iff. Qed.



End RetrievalFacts.

(** ** Properties of the helper of the test *)

Section TestHelperFacts.
Import RagTest.

Lemma collectIDs_spec (ds : list Document) (got : gset string) :
  collectIDs ds got = list_to_set (docIDs ds) ∪ got.
Proof.
  revert got. induction ds as [|d ds IH]; intros got; simpl.
  - by rewrite union_empty_l_L.
  - rewrite IH. apply set_eq. intros id. rewrite !elem_of_union. tauto.
Qed.

Lemma requireAll_None (expected : list string) (got : gset string) :
  requireAll expected got = None ↔ ∀ id, id ∈ expected → id ∈ got.
Proof.
  induction expected as [|id expected IH]; simpl.
  - split; [intros _ id' Hin; by apply elem_of_nil in Hin | done].
  - case_decide as Hid.
    + rewrite IH. split.
      * intros Hall id' [-> | Hin]%elem_of_cons; auto.
      * intros Hall id' Hin. apply Hall. by right.
    + split; [done |]. intros Hall. destruct Hid. apply Hall. by left.
Qed.

(** When the helper passes. *)
Lemma requireEqualDocIDs_None (expected : list string) (ds : list Document) :
  requireEqualDocIDs expected ds = None ↔
  size (list_to_set (docIDs ds) : gset string) = length expected ∧
  ∀ id, id ∈ expected → id ∈ docIDs ds.
Proof.
  unfold requireEqualDocIDs. rewrite collectIDs_spec, union_empty_r_L.
  case_decide as Hsize.
  - split; [done | by intros [? _]].
  - rewrite requireAll_None. split.
    + intros Hall. split; [done |]. intros id Hid.
      specialize (Hall id Hid). by rewrite elem_of_list_to_set in Hall.
    + intros [_ Hall] id Hid. rewrite elem_of_list_to_set. by apply Hall.
Qed.

Lemma size_list_to_set_le (l : list string) :
  (size (list_to_set l : gset string) ≤ length l)%nat.
Proof.
  induction l as [|x l IH].
  - by rewrite list_to_set_nil, size_empty.
  - rewrite list_to_set_cons, size_union_alt, size_singleton. simpl.
    assert (size (list_to_set l ∖ {[x]} : gset string)
            ≤ size (list_to_set l : gset string))%nat
      by (apply subseteq_size, subseteq_difference_l; done).
    lia.
Qed.

Lemma size_list_to_set_repeated (l : list string) :
  ¬ NoDup l → (size (list_to_set l : gset string) < length l)%nat.
Proof.
  induction l as [|x l IH]; intros Hdup.
  - destruct Hdup. constructor.
  - rewrite list_to_set_cons. simpl. destruct (decide (x ∈ l)) as [Hin | Hin].
    + assert ({[x]} ∪ list_to_set l = (list_to_set l : gset string)) as ->.
      { apply set_eq. intros y.
        rewrite elem_of_union, elem_of_singleton, elem_of_list_to_set.
        split; [intros [-> | ?]; done | by right]. }
      pose proof (size_list_to_set_le l). lia.
    + assert (¬ NoDup l) as Hl by (intros ?; apply Hdup; by constructor).
      apply IH in Hl. rewrite size_union_alt, size_singleton.
      assert (size (list_to_set l ∖ {[x]} : gset string)
              ≤ size (list_to_set l : gset string))%nat
        by (apply subseteq_size, subseteq_difference_l; done).
      lia.
Qed.

(** Exactly these ids.  For a list of expected ids without repetition,
    the helper passes exactly when the ids of the documents are the
    expected ids, in any order and with any repetition among the
    documents. *)
Theorem requireEqualDocIDs_exact (expected : list string) (ds : list Document) :
  NoDup expected →
  requireEqualDocIDs expected ds = None ↔
  ∀ id, id ∈ expected ↔ id ∈ docIDs ds.
Proof.
  intros Hdup. rewrite requireEqualDocIDs_None. split.
  - intros [Hsize Hall] id. split; [apply Hall |]. intros Hid.
    assert ((list_to_set expected : gset string) = list_to_set (docIDs ds))
      as Heq.
    { apply set_subseteq_size_eq.
      - intros x. rewrite !elem_of_list_to_set. apply Hall.
      - rewrite Hsize. by rewrite size_list_to_set. }
    rewrite <- (elem_of_list_to_set (C:=gset string)), Heq.
    by rewrite elem_of_list_to_set.
  - intros Hiff. split; [| intros id; apply Hiff].
    rewrite <- (size_list_to_set (C:=gset string) expected) by done.
    f_equal. apply set_eq. intros x. rewrite !elem_of_list_to_set.
    symmetry. apply Hiff.
Qed.

(** Ids as a set.  The helper sees the documents through the set of their
    ids only: two results with the same ids, in whatever order and with
    whatever repetitions, get the same verdict, message included. *)
Theorem requireEqualDocIDs_ids_only (expected : list string)
    (ds1 ds2 : list Document) :
  (∀ id, id ∈ docIDs ds1 ↔ id ∈ docIDs ds2) →
  requireEqualDocIDs expected ds1 = requireEqualDocIDs expected ds2.
Proof.
  intros Hiff. unfold requireEqualDocIDs. rewrite !collectIDs_spec.
  assert ((list_to_set (docIDs ds1) : gset string) = list_to_set (docIDs ds2))
    as -> by (apply set_eq; intros x; by rewrite !elem_of_list_to_set).
  done.
Qed.

(** A repeated expected id.  When an id occurs twice in the expected list
    and the helper passes, the result holds a document whose id is not
    expected: the count of distinct ids is compared with the length of the
    list. *)
Theorem requireEqualDocIDs_repeated_expected (expected : list string)
    (ds : list Document) :
  ¬ NoDup expected →
  requireEqualDocIDs expected ds = None →
  ∃ d, d ∈ ds ∧ ID d ∉ expected.
Proof.
  intros Hdup [Hsize Hall]%requireEqualDocIDs_None.
  apply size_list_to_set_repeated in Hdup.
  destruct (decide (Forall (λ d, ID d ∈ expected) ds)) as [Hin | Hout].
  - assert (size (list_to_set (docIDs ds) : gset string)
            ≤ size (list_to_set expected : gset string))%nat.
    { apply subseteq_size. intros x. rewrite !elem_of_list_to_set.
      intros (d & -> & Hd)%list_elem_of_fmap.
      rewrite Forall_forall in Hin. by apply Hin. }
    lia.
  - apply not_Forall_Exists in Hout; [| apply _].
    apply Exists_exists in Hout as (d & Hd & Hnot). by exists d.
Qed.

End TestHelperFacts.

(** ** Runs on the test bench *)

Section Bench.

(** The scenario of the repository's test. *)
Example Query_emilia_public :
  (Query asciiOnly () "emilia" "public" seededHeap).1 = ([doc3], None).
Proof. vm_compute. reflexivity. Qed.

Example Query_beatrice_playbook :
  (Query asciiOnly () "beatrice" "playbook" seededHeap).1 = ([doc2], None).
Proof. vm_compute. reflexivity. Qed.

Example Query_charlie_public :
  (Query asciiOnly () "charlie" "public" seededHeap).1 = ([doc3], None).
Proof. vm_compute. reflexivity. Qed.

Example Query_charlie_roadmap :
  (Query asciiOnly () "charlie" "roadmap" seededHeap).1 = ([], None).
Proof. vm_compute. reflexivity. Qed.

(** The second check fails: nothing is returned, the third document is
    not checked. *)
Example Query_second_check_fails :
  let out := Query asciiOnly () "emilia" "" (scriptedHeap testDocs [has; down; has]) in
  out.1 = ([], Some "connection refused") ∧ length (issued out.2) = 2%nat ∧
  service out.2 = [has].
Proof. vm_compute. done. Qed.

(** Responses that are neither HAS_PERMISSION nor NO_PERMISSION. *)
Example Query_other_permissionships :
  (Query asciiOnly () "emilia" ""
     (scriptedHeap testDocs [unspecified; has; conditional])).1
  = ([doc2], None).
Proof. vm_compute. reflexivity. Qed.

Example resolveIdentity_doc1 : resolveIdentity doc1 = Some ("document", "doc1").
Proof. vm_compute. reflexivity. Qed.

Example resolveIdentity_orphan : resolveIdentity orphan = None.
Proof. vm_compute. reflexivity. Qed.

Example resolveIdentity_untyped : resolveIdentity untyped = Some ("", "doc5").
Proof. vm_compute. reflexivity. Qed.

Example resolveIdentity_nested :
  resolveIdentity nested = Some ("document", "team:doc6").
Proof. vm_compute. reflexivity. Qed.

Lemma untyped_malformed : reference_missing_or_malformed untyped.
Proof.
  unfold reference_missing_or_malformed.
  change (Metadata untyped !! "spicedb_object") with (Some ":doc5").
  intros (ty & id & Heq & Hty & _ & Hno & _).
  destruct ty as [|c ty]; [done |].
  injection Heq as <- _. by rewrite colon_head in Hno.
Qed.

Lemma nested_malformed : reference_missing_or_malformed nested.
Proof.
  unfold reference_missing_or_malformed.
  change (Metadata nested !! "spicedb_object") with (Some "document:team:doc6").
  intros (ty & id & Heq & _ & _ & Hno & Hnoid).
  destruct (first_colon_unique "document" "team:doc6" ty id Heq) as [_ <-];
    [done | done |].
  discriminate Hnoid.
Qed.

(** C3, counterexample.  Two documents whose references are malformed (an
    empty resource type; three parts) match the query, the service grants
    the checks, and [Query] returns both. *)
Lemma malformed_reference_returned :
  reference_missing_or_malformed untyped ∧
  reference_missing_or_malformed nested ∧
  (Query asciiOnly () "charlie" "public"
     (grantingHeap [untyped; nested])).1 = ([untyped; nested], None).
Proof.
  split; [apply untyped_malformed |]. split; [apply nested_malformed |].
  vm_compute. reflexivity.
Qed.

Lemma Query_excludes_unresolvable_witness :
  (Metadata orphan !! "spicedb_object" = None ∨
   ∃ v, Metadata orphan !! "spicedb_object" = Some v ∧ Contains v ":" = false) ∧
  (orphan ∉ (Query asciiOnly () "charlie" "" orphanHeap).1.1) ∧
  ∀ front back,
    docs (self orphanHeap) = front ++ orphan :: back →
    let out := Query asciiOnly () "charlie" "" orphanHeap in
    let out' := Query asciiOnly () "charlie" ""
                  (withSelf (withDocs (front ++ back) (self orphanHeap))
                            orphanHeap) in
    out'.1 = out.1 ∧ service out'.2 = service out.2 ∧
    issued out'.2 = issued out.2.
Proof.
  split; [left; reflexivity |].
  apply (Query_excludes_unresolvable asciiOnly () "charlie" "" orphanHeap
           orphan).
  left. reflexivity.
Defined.

Lemma Query_order_preserved_witness :
  Query asciiOnly () "dana" "" mixedHeap
  = (([doc1; doc3], None), (Query asciiOnly () "dana" "" mixedHeap).2) ∧
  [doc1; doc3] `sublist_of` retrieve asciiOnly (docs (self mixedHeap)) "" ∧
  retrieve asciiOnly (docs (self mixedHeap)) ""
    `sublist_of` docs (self mixedHeap).
Proof.
  assert (Query asciiOnly () "dana" "" mixedHeap
          = (([doc1; doc3], None), (Query asciiOnly () "dana" "" mixedHeap).2))
    as Hrun by (vm_compute; reflexivity).
  split; [exact Hrun |].
  exact (Query_order_preserved asciiOnly () "dana" "" mixedHeap
           [doc1; doc3] _ Hrun).
Defined.

Lemma Query_deterministic_witness :
  (Query asciiOnly () "emilia" "" (scriptedHeap testDocs [has; no; has])).1
  = (Query asciiOnly () "emilia" ""
       (scriptedHeap testDocs [has; no; has; down])).1 ∧
  issued (Query asciiOnly () "emilia" ""
            (scriptedHeap testDocs [has; no; has])).2
  = issued (Query asciiOnly () "emilia" ""
              (scriptedHeap testDocs [has; no; has; down])).2.
Proof.
  apply (Query_deterministic asciiOnly () () "emilia" ""
           (scriptedHeap testDocs [has; no; has])
           (scriptedHeap testDocs [has; no; has; down])).
  - reflexivity.
  - reflexivity.
  - reflexivity.
  - reflexivity.
  - intros n call1 call2. vm_compute.
    destruct n as [|[|[|n]]]; intros H1 H2;
      first [discriminate H1 | injection H1 as <-; injection H2 as <-; reflexivity].
Defined.


End Bench.


(** ** Further runs on the test bench *)

Section MoreBench.
Import RagTest.

Lemma Query_nothing_to_check_witness :
  Query asciiOnly () "charlie" "public" uncheckedHeap
  = (([], None), uncheckedHeap).
Proof.
  apply (Query_nothing_to_check asciiOnly () "charlie" "public" uncheckedHeap).
  intros d Hd _. simpl in Hd.
  apply elem_of_cons in Hd as [-> | Hd]; [vm_compute; reflexivity |].
  apply elem_of_cons in Hd as [-> | Hd]; [vm_compute; reflexivity |].
  by apply elem_of_nil in Hd.
Defined.

Lemma Query_issues_planned_requests_witness :
  Query asciiOnly () "emilia" "roadmap" twiceHeap
  = (([doc1], None), (Query asciiOnly () "emilia" "roadmap" twiceHeap).2) ∧
  ∃ calls : list (CheckPermissionRequest * Answer),
    issued (Query asciiOnly () "emilia" "roadmap" twiceHeap).2
    = issued twiceHeap ++ calls ∧
    calls.*1 = plannedRequests (permission (self twiceHeap)) "emilia"
                 (retrieve asciiOnly (docs (self twiceHeap)) "roadmap").
Proof.
  assert (Query asciiOnly () "emilia" "roadmap" twiceHeap
          = (([doc1], None), (Query asciiOnly () "emilia" "roadmap" twiceHeap).2))
    as Hrun by (vm_compute; reflexivity).
  split; [exact Hrun |].
  exact (Query_issues_planned_requests asciiOnly () "emilia" "roadmap"
           twiceHeap [doc1] _ Hrun).
Defined.

Lemma Query_unique_ids_witness :
  NoDup (docIDs (docs (self seededHeap))) ∧
  NoDup (docIDs (Query asciiOnly () "emilia" "" seededHeap).1.1).
Proof.
  assert (NoDup (docIDs (docs (self seededHeap)))) as Hdup
    by (apply (bool_decide_unpack _); vm_compute; exact I).
  split; [exact Hdup |].
  exact (Query_unique_ids asciiOnly () "emilia" "" seededHeap Hdup).
Defined.

Lemma Query_stateless_service_witness :
  (Query asciiOnly () "dana" "public" orphanHeap).1
  = (filter (λ d, permitted alwaysHas (permission (self orphanHeap)) "dana" d
                  = true
                  ∧ selects asciiOnly (ToLower asciiOnly "public") d)
            (docs (self orphanHeap)),
     None).
Proof.
  apply (Query_stateless_service asciiOnly () "dana" "public" alwaysHas
           orphanHeap).
  intros req w. reflexivity.
Defined.

Lemma Query_no_error_when_answered_witness :
  (Query asciiOnly () "dana" "" orphanHeap).1.2 = None.
Proof.
  apply (Query_no_error_when_answered asciiOnly () "dana" "" orphanHeap).
  intros req w. eexists. reflexivity.
Defined.

Lemma retrieve_query_longer_than_text_witness :
  doc3 ∉ retrieve asciiOnly testDocs "Public FAQ for all users and guests.".
Proof.
  apply (retrieve_query_longer_than_text asciiOnly testDocs
           "Public FAQ for all users and guests." doc3).
  - reflexivity.
  - reflexivity.
  - simpl. lia.
Defined.

Lemma retrieve_narrows_witness :
  retrieve asciiOnly testDocs "Roadmap for"
    `sublist_of` retrieve asciiOnly testDocs "Roadmap".
Proof.
  apply (retrieve_narrows asciiOnly testDocs "Roadmap for" "Roadmap").
  - reflexivity.
  - exists "", " for". reflexivity.
Defined.

Lemma reference_resolves_witness :
  resolveIdentity nested = Some ("document", "team:doc6").
Proof.
  apply (reference_resolves nested "document" "team:doc6").
  - reflexivity.
  - reflexivity.
Defined.

Lemma requireEqualDocIDs_exact_witness :
  requireEqualDocIDs ["doc3"; "doc1"] [doc1; doc3; doc1] = None ↔
  ∀ id, id ∈ ["doc3"; "doc1"] ↔ id ∈ docIDs [doc1; doc3; doc1].
Proof.
  apply (requireEqualDocIDs_exact ["doc3"; "doc1"] [doc1; doc3; doc1]).
  apply (bool_decide_unpack _). vm_compute. exact I.
Defined.

Lemma requireEqualDocIDs_ids_only_witness :
  requireEqualDocIDs ["doc2"] [doc1; doc3]
  = requireEqualDocIDs ["doc2"] [doc3; doc1; doc1].
Proof.
  apply (requireEqualDocIDs_ids_only ["doc2"] [doc1; doc3] [doc3; doc1; doc1]).
  intros id. simpl. rewrite !elem_of_cons, !elem_of_nil. tauto.
Defined.

Lemma requireEqualDocIDs_repeated_expected_witness :
  requireEqualDocIDs ["doc3"; "doc3"] [doc3; doc1] = None ∧
  ∃ d, d ∈ [doc3; doc1] ∧ ID d ∉ ["doc3"; "doc3"].
Proof.
  assert (requireEqualDocIDs ["doc3"; "doc3"] [doc3; doc1] = None) as Hpass
    by (vm_compute; reflexivity).
  split; [exact Hpass |].
  apply (requireEqualDocIDs_repeated_expected ["doc3"; "doc3"] [doc3; doc1]);
    [| exact Hpass].
  intros Hdup. apply NoDup_cons in Hdup as [Hnot _]. apply Hnot. by left.
Defined.

End MoreBench.
